(** * Scopa web client: the synchronisation core

    A shallow embedding of the client-side core of the Scopa card game:
    - [stores/game.js]: the Svelte stores holding all client state;
    - [ws.js]: the WebSocket client ([connect], [disconnect], [sendPlay],
      [sendGetCaptures], [_dispatch], [_send]);
    - [GameBoard.svelte]: the capture-selection handlers
      ([handleHandCard], [handleTableCard], [executePlay],
      [cancelSelection]) and its two reactive statements;
    - [routes/game/[session_id]/+page.svelte]: [onMount] / [onDestroy].

    Every JavaScript function becomes a function [World -> World]; the
    module-level variables, the stores, the sockets created so far, the
    console and the pending timers are the fields of [World]. *)

From stdpp Require Import base gmap strings list fin_sets.

#[local] Set Warnings "-clear-no-such-hyp".

(** ** Data carried by the protocol *)

(** A card as the server serialises it: [{id, suit, value, image_url}]. *)
Module Card.
Record t := mk { id : string; suit : string; value : Z; image_url : string }.
End Card.

(** One entry of [state.players]. *)
Module PlayerInfo.
Record t := mk { hand_count : Z; captured_count : Z; scopas : Z }.
End PlayerInfo.

(** The payload of a [state] message.  [players] and [scores] are JSON
    objects; they are kept as association lists in key order, the order
    [Object.entries] iterates in. *)
Module GameState.
Record t := mk {
  phase : string;
  table : list Card.t;
  players : list (string * PlayerInfo.t);
  scores : list (string * Z);
  deck_remaining : Z;
  is_human_turn : bool;
  human_hand : list Card.t
}.
End GameState.

(** The [round_over] message, stored whole in [roundResult]. *)
Record RoundOver := {
  round_number : Z;
  round_scores : list (string * Z);
  cumulative : list (string * Z)
}.

(** The value of [lastScopaBy]. *)
Record ScopaBy := { player_id : string; is_mine : bool }.

(** Values of [wsStatus] and of [dealType]. *)
Inductive WsStatus := disconnected | connecting | connected | waiting.
Inductive DealType := full | hands.

(** Inbound messages, by their [type] field; [msg_unknown] is any other
    type string. *)
Inductive InMsg :=
| msg_waiting
| msg_game_started (opponent_id : option string) (round : option Z)
| msg_cards_dealt (round : option Z)
| msg_state (state : GameState.t)
| msg_captures (options : list (list string))
| msg_round_over (result : RoundOver)
| msg_error (message : string)
| msg_opponent_disconnected
| msg_pong
| msg_unknown (type : string).

(** A frame is either text [JSON.parse] rejects or a decoded message,
    with the fields its type calls for. *)
Inductive Frame := frame_garbage (data : string) | frame_json (msg : InMsg).

(** Outbound messages; the JSON text [JSON.stringify] produces is left
    abstract, a frame on the wire is the message itself. *)
Inductive OutMsg :=
| play (card_id : string) (capture_ids : list string)
| get_captures (card_id : string).

#[global] Instance WsStatus_eq_dec : EqDecision WsStatus.
Proof. solve_decision. Defined.
#[global] Instance OutMsg_eq_dec : EqDecision OutMsg.
Proof. solve_decision. Defined.

(** ** stores/game.js *)

Record Stores := {
  sessionId : option string;
  playerId : option string;
  opponentId : option string;
  joinCode : option string;
  wsStatus : WsStatus;
  gameState : option GameState.t;
  selectedCard : option Card.t;
  captureOptions : list (list string);
  roundResult : option RoundOver;
  errorMessage : option string;
  isWaiting : bool;
  isDealing : bool;
  roundNumber : Z;
  dealType : DealType;
  capturesLoaded : bool;
  lastScopaBy : option ScopaBy
}.

(** The initial values the [writable(...)] calls give. *)
Definition initial_stores : Stores :=
  {| sessionId := None; playerId := None; opponentId := None;
     joinCode := None; wsStatus := disconnected; gameState := None;
     selectedCard := None; captureOptions := []; roundResult := None;
     errorMessage := None; isWaiting := false; isDealing := false;
     roundNumber := 1; dealType := full; capturesLoaded := false;
     lastScopaBy := None |}.

(** Derived stores. *)
Definition isMyTurn (s : Stores) : bool :=
  match gameState s with Some gs => GameState.is_human_turn gs | None => false end.
Definition myHand (s : Stores) : list Card.t :=
  match gameState s with Some gs => GameState.human_hand gs | None => [] end.
Definition tableCards (s : Stores) : list Card.t :=
  match gameState s with Some gs => GameState.table gs | None => [] end.
Definition deckRemaining (s : Stores) : Z :=
  match gameState s with Some gs => GameState.deck_remaining gs | None => 0%Z end.
Definition scores (s : Stores) : list (string * Z) :=
  match gameState s with Some gs => GameState.scores gs | None => [] end.

(** Field updates. *)
Definition with_sessionId v (s : Stores) : Stores :=
  Build_Stores v (playerId s) (opponentId s) (joinCode s) (wsStatus s)
    (gameState s) (selectedCard s) (captureOptions s) (roundResult s)
    (errorMessage s) (isWaiting s) (isDealing s) (roundNumber s) (dealType
    s) (capturesLoaded s) (lastScopaBy s).
Definition with_playerId v (s : Stores) : Stores :=
  Build_Stores (sessionId s) v (opponentId s) (joinCode s) (wsStatus s)
    (gameState s) (selectedCard s) (captureOptions s) (roundResult s)
    (errorMessage s) (isWaiting s) (isDealing s) (roundNumber s) (dealType
    s) (capturesLoaded s) (lastScopaBy s).
Definition with_opponentId v (s : Stores) : Stores :=
  Build_Stores (sessionId s) (playerId s) v (joinCode s) (wsStatus s)
    (gameState s) (selectedCard s) (captureOptions s) (roundResult s)
    (errorMessage s) (isWaiting s) (isDealing s) (roundNumber s) (dealType
    s) (capturesLoaded s) (lastScopaBy s).
Definition with_joinCode v (s : Stores) : Stores :=
  Build_Stores (sessionId s) (playerId s) (opponentId s) v (wsStatus s)
    (gameState s) (selectedCard s) (captureOptions s) (roundResult s)
    (errorMessage s) (isWaiting s) (isDealing s) (roundNumber s) (dealType
    s) (capturesLoaded s) (lastScopaBy s).
Definition with_wsStatus v (s : Stores) : Stores :=
  Build_Stores (sessionId s) (playerId s) (opponentId s) (joinCode s) v
    (gameState s) (selectedCard s) (captureOptions s) (roundResult s)
    (errorMessage s) (isWaiting s) (isDealing s) (roundNumber s) (dealType
    s) (capturesLoaded s) (lastScopaBy s).
Definition with_gameState v (s : Stores) : Stores :=
  Build_Stores (sessionId s) (playerId s) (opponentId s) (joinCode s)
    (wsStatus s) v (selectedCard s) (captureOptions s) (roundResult s)
    (errorMessage s) (isWaiting s) (isDealing s) (roundNumber s) (dealType
    s) (capturesLoaded s) (lastScopaBy s).
Definition with_selectedCard v (s : Stores) : Stores :=
  Build_Stores (sessionId s) (playerId s) (opponentId s) (joinCode s)
    (wsStatus s) (gameState s) v (captureOptions s) (roundResult s)
    (errorMessage s) (isWaiting s) (isDealing s) (roundNumber s) (dealType
    s) (capturesLoaded s) (lastScopaBy s).
Definition with_captureOptions v (s : Stores) : Stores :=
  Build_Stores (sessionId s) (playerId s) (opponentId s) (joinCode s)
    (wsStatus s) (gameState s) (selectedCard s) v (roundResult s)
    (errorMessage s) (isWaiting s) (isDealing s) (roundNumber s) (dealType
    s) (capturesLoaded s) (lastScopaBy s).
Definition with_roundResult v (s : Stores) : Stores :=
  Build_Stores (sessionId s) (playerId s) (opponentId s) (joinCode s)
    (wsStatus s) (gameState s) (selectedCard s) (captureOptions s) v
    (errorMessage s) (isWaiting s) (isDealing s) (roundNumber s) (dealType
    s) (capturesLoaded s) (lastScopaBy s).
Definition with_errorMessage v (s : Stores) : Stores :=
  Build_Stores (sessionId s) (playerId s) (opponentId s) (joinCode s)
    (wsStatus s) (gameState s) (selectedCard s) (captureOptions s)
    (roundResult s) v (isWaiting s) (isDealing s) (roundNumber s) (dealType
    s) (capturesLoaded s) (lastScopaBy s).
Definition with_isWaiting v (s : Stores) : Stores :=
  Build_Stores (sessionId s) (playerId s) (opponentId s) (joinCode s)
    (wsStatus s) (gameState s) (selectedCard s) (captureOptions s)
    (roundResult s) (errorMessage s) v (isDealing s) (roundNumber s)
    (dealType s) (capturesLoaded s) (lastScopaBy s).
Definition with_isDealing v (s : Stores) : Stores :=
  Build_Stores (sessionId s) (playerId s) (opponentId s) (joinCode s)
    (wsStatus s) (gameState s) (selectedCard s) (captureOptions s)
    (roundResult s) (errorMessage s) (isWaiting s) v (roundNumber s)
    (dealType s) (capturesLoaded s) (lastScopaBy s).
Definition with_roundNumber v (s : Stores) : Stores :=
  Build_Stores (sessionId s) (playerId s) (opponentId s) (joinCode s)
    (wsStatus s) (gameState s) (selectedCard s) (captureOptions s)
    (roundResult s) (errorMessage s) (isWaiting s) (isDealing s) v (dealType
    s) (capturesLoaded s) (lastScopaBy s).
Definition with_dealType v (s : Stores) : Stores :=
  Build_Stores (sessionId s) (playerId s) (opponentId s) (joinCode s)
    (wsStatus s) (gameState s) (selectedCard s) (captureOptions s)
    (roundResult s) (errorMessage s) (isWaiting s) (isDealing s)
    (roundNumber s) v (capturesLoaded s) (lastScopaBy s).
Definition with_capturesLoaded v (s : Stores) : Stores :=
  Build_Stores (sessionId s) (playerId s) (opponentId s) (joinCode s)
    (wsStatus s) (gameState s) (selectedCard s) (captureOptions s)
    (roundResult s) (errorMessage s) (isWaiting s) (isDealing s)
    (roundNumber s) (dealType s) v (lastScopaBy s).
Definition with_lastScopaBy v (s : Stores) : Stores :=
  Build_Stores (sessionId s) (playerId s) (opponentId s) (joinCode s)
    (wsStatus s) (gameState s) (selectedCard s) (captureOptions s)
    (roundResult s) (errorMessage s) (isWaiting s) (isDealing s)
    (roundNumber s) (dealType s) (capturesLoaded s) v.

(** ** The environment: sockets, console, timers *)

Inductive ReadyState := CONNECTING | OPEN | CLOSING | CLOSED.

#[global] Instance ReadyState_eq_dec : EqDecision ReadyState.
Proof. solve_decision. Defined.

(** A [WebSocket] object: its url, its [readyState] and the frames handed
    to its [send] so far. *)
Record WebSocket := {
  url : string;
  readyState : ReadyState;
  sentFrames : list OutMsg
}.

(** What the code writes to the console. *)
Inductive LogEntry :=
| log_connected (u : string)
| log_closed
| log_ws_error
| log_parse_failed (data : string)
| log_unknown_type (type : string)
| log_cannot_send (msg : OutMsg).

(** The callbacks handed to [setTimeout], with their delay in ms. *)
Inductive TimerAction := clear_lastScopaBy | clear_errorMessage.

Record Location := { protocol : string; host : string }.

(** The whole client.  [_ws] refers to a socket by its position in
    [sockets]: sockets that were replaced stay there, their handlers still
    attached.  [pendingTableIds] and [capturableIds] are the two component
    variables of GameBoard; the dirty flags record that the component was
    told of a store change and has not yet run its reactive statements. *)
Record World := {
  stores : Stores;
  _ws : option nat;
  _myPlayerId : option string;
  sockets : list WebSocket;
  console : list LogEntry;
  timers : list (TimerAction * Z);
  location : Location;
  pendingTableIds : gset string;
  capturableIds : gset string;
  dirty_selectedCard : bool;
  dirty_captureOptions : bool
}.

Definition set_stores v (w : World) : World :=
  Build_World v (_ws w) (_myPlayerId w) (sockets w) (console w) (timers w)
    (location w) (pendingTableIds w) (capturableIds w) (dirty_selectedCard
    w) (dirty_captureOptions w).
Definition set_ws v (w : World) : World :=
  Build_World (stores w) v (_myPlayerId w) (sockets w) (console w) (timers
    w) (location w) (pendingTableIds w) (capturableIds w)
    (dirty_selectedCard w) (dirty_captureOptions w).
Definition set_myPlayerId v (w : World) : World :=
  Build_World (stores w) (_ws w) v (sockets w) (console w) (timers w)
    (location w) (pendingTableIds w) (capturableIds w) (dirty_selectedCard
    w) (dirty_captureOptions w).
Definition set_sockets v (w : World) : World :=
  Build_World (stores w) (_ws w) (_myPlayerId w) v (console w) (timers w)
    (location w) (pendingTableIds w) (capturableIds w) (dirty_selectedCard
    w) (dirty_captureOptions w).
Definition set_console v (w : World) : World :=
  Build_World (stores w) (_ws w) (_myPlayerId w) (sockets w) v (timers w)
    (location w) (pendingTableIds w) (capturableIds w) (dirty_selectedCard
    w) (dirty_captureOptions w).
Definition set_timers v (w : World) : World :=
  Build_World (stores w) (_ws w) (_myPlayerId w) (sockets w) (console w) v
    (location w) (pendingTableIds w) (capturableIds w) (dirty_selectedCard
    w) (dirty_captureOptions w).
Definition set_pendingTableIds v (w : World) : World :=
  Build_World (stores w) (_ws w) (_myPlayerId w) (sockets w) (console w)
    (timers w) (location w) v (capturableIds w) (dirty_selectedCard w)
    (dirty_captureOptions w).
Definition set_capturableIds v (w : World) : World :=
  Build_World (stores w) (_ws w) (_myPlayerId w) (sockets w) (console w)
    (timers w) (location w) (pendingTableIds w) v (dirty_selectedCard w)
    (dirty_captureOptions w).
Definition set_dirty_selectedCard v (w : World) : World :=
  Build_World (stores w) (_ws w) (_myPlayerId w) (sockets w) (console w)
    (timers w) (location w) (pendingTableIds w) (capturableIds w) v
    (dirty_captureOptions w).
Definition set_dirty_captureOptions v (w : World) : World :=
  Build_World (stores w) (_ws w) (_myPlayerId w) (sockets w) (console w)
    (timers w) (location w) (pendingTableIds w) (capturableIds w)
    (dirty_selectedCard w) v.

(** ** Store writes

    [store.set(v)] does nothing unless [safe_not_equal(old, v)]; then it
    replaces the value and calls the subscribers.  Two objects or arrays
    always count as different; [null] and the other primitives are
    compared with [!==].  GameBoard subscribes to [selectedCard] and
    [captureOptions] and reads them in its reactive statements, so a
    notifying write to one of these two marks the component dirty.  For
    the other stores nothing below depends on the notification, and a
    write is the replacement of the value (of an equal value by itself,
    when [set] does nothing). *)

Definition on_stores (f : Stores → Stores) (w : World) : World :=
  set_stores (f (stores w)) w.

(** [safe_not_equal] on the values [selectedCard] takes, [null] or a card
    object: only [null] against [null] is equal. *)
Definition safe_not_equal (a b : option Card.t) : bool :=
  match a, b with
  | None, None => false
  | _, _ => true
  end.

Definition selectedCard_set (v : option Card.t) (w : World) : World :=
  let changed := safe_not_equal (selectedCard (stores w)) v in
  set_dirty_selectedCard (dirty_selectedCard w || changed)
    (on_stores (with_selectedCard v) w).

Definition captureOptions_set (v : list (list string)) (w : World) : World :=
  set_dirty_captureOptions true (on_stores (with_captureOptions v) w).

Definition sessionId_set v := on_stores (with_sessionId v).
Definition playerId_set v := on_stores (with_playerId v).
Definition opponentId_set v := on_stores (with_opponentId v).
Definition joinCode_set v := on_stores (with_joinCode v).
Definition wsStatus_set v := on_stores (with_wsStatus v).
Definition gameState_set v := on_stores (with_gameState v).
Definition roundResult_set v := on_stores (with_roundResult v).
Definition errorMessage_set v := on_stores (with_errorMessage v).
Definition isWaiting_set v := on_stores (with_isWaiting v).
Definition isDealing_set v := on_stores (with_isDealing v).
Definition roundNumber_set v := on_stores (with_roundNumber v).
Definition dealType_set v := on_stores (with_dealType v).
Definition capturesLoaded_set v := on_stores (with_capturesLoaded v).
Definition lastScopaBy_set v := on_stores (with_lastScopaBy v).

(** [console.log], [console.warn], [console.error] and [setTimeout]. *)
Definition console_write (e : LogEntry) (w : World) : World :=
  set_console (console w ++ [e]) w.

Definition setTimeout (a : TimerAction) (ms : Z) (w : World) : World :=
  set_timers (timers w ++ [(a, ms)]) w.

(** ** The WebSocket object *)

Definition new_WebSocket (u : string) : WebSocket :=
  {| url := u; readyState := CONNECTING; sentFrames := [] |}.

Definition with_readyState (r : ReadyState) (k : WebSocket) : WebSocket :=
  {| url := url k; readyState := r; sentFrames := sentFrames k |}.

(** [socket.close()]: starts the closing handshake unless the socket is
    already closing or closed. *)
Definition socket_close (k : WebSocket) : WebSocket :=
  match readyState k with
  | CLOSING | CLOSED => k
  | CONNECTING | OPEN => with_readyState CLOSING k
  end.

(** [socket.send(data)] on an open socket. *)
Definition socket_send (m : OutMsg) (k : WebSocket) : WebSocket :=
  {| url := url k; readyState := readyState k;
     sentFrames := sentFrames k ++ [m] |}.

(** A socket is live while it is connecting or open. *)
Definition live (k : WebSocket) : bool :=
  match readyState k with
  | CONNECTING | OPEN => true
  | CLOSING | CLOSED => false
  end.

(** ** ws.js *)

(** JavaScript truthiness of an optional string and an optional number. *)
Definition truthy_string (o : option string) : bool :=
  match o with Some s => negb (bool_decide (s = "")) | None => false end.
Definition truthy_number (o : option Z) : bool :=
  match o with Some z => negb (Z.eqb z 0) | None => false end.

Definition _send (msg : OutMsg) (w : World) : World :=
  match _ws w with
  | Some k =>
      match sockets w !! k with
      | Some sock =>
          if bool_decide (readyState sock = OPEN)
          then set_sockets (alter (socket_send msg) k (sockets w)) w
          else console_write (log_cannot_send msg) w
      | None => console_write (log_cannot_send msg) w
      end
  | None => console_write (log_cannot_send msg) w
  end.

Definition sendPlay (cardId : string) (captureIds : list string) : World → World :=
  _send (play cardId captureIds).

Definition sendGetCaptures (cardId : string) : World → World :=
  _send (get_captures cardId).

Definition disconnect (w : World) : World :=
  match _ws w with
  | Some k => set_ws None (set_sockets (alter socket_close k (sockets w)) w)
  | None => w
  end.

Definition connect (sessionId playerId : string) (w : World) : World :=
  let w := set_myPlayerId (Some playerId) w in
  let w := match _ws w with
           | Some k => set_ws None (set_sockets (alter socket_close k (sockets w)) w)
           | None => w
           end in
  let proto := if bool_decide (protocol (location w) = "https:")
               then "wss:" else "ws:" in
  let u := proto +:+ "//" +:+ host (location w) +:+ "/ws/" +:+ sessionId
                 +:+ "/" +:+ playerId in
  let w := wsStatus_set connecting w in
  let k := length (sockets w) in
  let w := set_sockets (sockets w ++ [new_WebSocket u]) w in
  set_ws (Some k) w.

(** *** Scopa detection (the loop of the [state] case)

    [prev.players?.[pid]?.scopas ?? 0] *)
Fixpoint lookup_player (pid : string) (ps : list (string * PlayerInfo.t))
  : option PlayerInfo.t :=
  match ps with
  | [] => None
  | (p, info) :: rest =>
      if bool_decide (p = pid) then Some info else lookup_player pid rest
  end.

Definition oldScopas (prev : GameState.t) (pid : string) : Z :=
  match lookup_player pid (GameState.players prev) with
  | Some info => PlayerInfo.scopas info
  | None => 0%Z
  end.

(** One turn of the loop body for the entry [(pid, pinfo)]. *)
Definition detect_scopa (prev : GameState.t) (w : World)
    (entry : string * PlayerInfo.t) : World :=
  let '(pid, pinfo) := entry in
  if (oldScopas prev pid <? PlayerInfo.scopas pinfo)%Z then
    let w := lastScopaBy_set
               (Some {| player_id := pid;
                        is_mine := bool_decide (Some pid = _myPlayerId w) |}) w in
    setTimeout clear_lastScopaBy 2500 w
  else w.

(** [for (const [pid, pinfo] of Object.entries(newState.players ?? {}))] *)
Definition detect_scopas (prev newState : GameState.t) (w : World) : World :=
  foldl (detect_scopa prev) w (GameState.players newState).

Definition _dispatch (msg : InMsg) (w : World) : World :=
  match msg with
  | msg_waiting =>
      let w := isWaiting_set true w in
      wsStatus_set waiting w
  | msg_game_started opponent_id round =>
      let w := isWaiting_set false w in
      let w := wsStatus_set connected w in
      let w := if truthy_string opponent_id then opponentId_set opponent_id w else w in
      let w := match round with
               | Some r => if truthy_number round then roundNumber_set r w else w
               | None => w
               end in
      let w := selectedCard_set None w in
      let w := captureOptions_set [] w in
      let w := capturesLoaded_set false w in
      let w := roundResult_set None w in
      let w := gameState_set None w in
      let w := dealType_set full w in
      isDealing_set true w
  | msg_cards_dealt round =>
      let w := match round with
               | Some r => if truthy_number round then roundNumber_set r w else w
               | None => w
               end in
      let w := selectedCard_set None w in
      let w := captureOptions_set [] w in
      let w := capturesLoaded_set false w in
      let w := dealType_set hands w in
      isDealing_set true w
  | msg_state newState =>
      let prev := gameState (stores w) in
      let w := match prev with
               | Some p => detect_scopas p newState w
               | None => w
               end in
      let w := gameState_set (Some newState) w in
      let w := errorMessage_set None w in
      let w := roundResult_set None w in
      if negb (GameState.is_human_turn newState) then
        let w := selectedCard_set None w in
        let w := captureOptions_set [] w in
        capturesLoaded_set false w
      else w
  | msg_captures options =>
      let w := captureOptions_set options w in
      capturesLoaded_set true w
  | msg_round_over result =>
      let w := roundResult_set (Some result) w in
      let w := captureOptions_set [] w in
      let w := capturesLoaded_set false w in
      selectedCard_set None w
  | msg_error message =>
      let w := errorMessage_set (Some message) w in
      setTimeout clear_errorMessage 4000 w
  | msg_opponent_disconnected =>
      let w := wsStatus_set disconnected w in
      errorMessage_set (Some "Opponent disconnected.") w
  | msg_pong => w
  | msg_unknown type => console_write (log_unknown_type type) w
  end.

(** The four handlers [connect] attaches to every socket it creates. *)
Definition onopen (u : string) (w : World) : World :=
  let w := wsStatus_set connected w in
  console_write (log_connected u) w.

Definition onmessage (f : Frame) (w : World) : World :=
  match f with
  | frame_json msg => _dispatch msg w
  | frame_garbage data => console_write (log_parse_failed data) w
  end.

Definition onerror (w : World) : World :=
  let w := console_write log_ws_error w in
  wsStatus_set disconnected w.

Definition onclose (w : World) : World :=
  let w := wsStatus_set disconnected w in
  console_write log_closed w.

(** The callbacks given to [setTimeout]. *)
Definition run_timer (a : TimerAction) (w : World) : World :=
  match a with
  | clear_lastScopaBy => lastScopaBy_set None w
  | clear_errorMessage => errorMessage_set None w
  end.

(** ** GameBoard.svelte *)

(** The two reactive statements, run when the component updates:
    [$: capturableIds = new Set($captureOptions.flat())] and
    [$: if ($selectedCard === null) pendingTableIds = new Set()].
    Each runs only if the store it reads was written since the last
    update. *)
Definition flush (w : World) : World :=
  let w := if dirty_captureOptions w
           then set_capturableIds
                  (list_to_set (concat (captureOptions (stores w)))) w
           else w in
  let w := if dirty_selectedCard w
           then match selectedCard (stores w) with
                | None => set_pendingTableIds ∅ w
                | Some _ => w
                end
           else w in
  set_dirty_captureOptions false (set_dirty_selectedCard false w).

(** Instantiating the component: [let pendingTableIds = new Set()], then
    every reactive statement once. *)
Definition mount_board (w : World) : World :=
  let w := set_pendingTableIds ∅ w in
  flush (set_dirty_captureOptions true (set_dirty_selectedCard true w)).

Definition executePlay (cardId : string) (captIds : list string) (w : World)
  : World :=
  let w := sendPlay cardId captIds w in
  let w := selectedCard_set None w in
  let w := captureOptions_set [] w in
  let w := capturesLoaded_set false w in
  set_pendingTableIds ∅ w.

Definition cancelSelection (w : World) : World :=
  let w := selectedCard_set None w in
  let w := captureOptions_set [] w in
  let w := capturesLoaded_set false w in
  set_pendingTableIds ∅ w.

Definition handleHandCard (card : Card.t) (w : World) : World :=
  if negb (isMyTurn (stores w)) then w else
  let same := match selectedCard (stores w) with
              | Some sel => bool_decide (Card.id sel = Card.id card)
              | None => false
              end in
  if same then
    if bool_decide (length (captureOptions (stores w)) = 0%nat)
    then executePlay (Card.id card) [] w
    else cancelSelection w
  else
    let w := selectedCard_set (Some card) w in
    let w := captureOptions_set [] w in
    let w := capturesLoaded_set false w in
    let w := set_pendingTableIds ∅ w in
    sendGetCaptures (Card.id card) w.

(** [next.has(id) ? next.delete(id) : next.add(id)] on a copy of the set. *)
Definition toggle (x : string) (pending : gset string) : gset string :=
  if decide (x ∈ pending) then pending ∖ {[x]} else pending ∪ {[x]}.

(** The predicate given to [find]:
    [opt.length === pendingArr.length && pendingArr.every(id => opt.includes(id))]. *)
Definition exact_match (pendingArr : list string) (opt : list string) : bool :=
  bool_decide (length opt = length pendingArr)
  && forallb (λ id, bool_decide (id ∈ opt)) pendingArr.

(** [pendingArr = [...pendingTableIds]] is [elements] of the set: the
    order differs from the insertion order of a JavaScript [Set], which
    [length] and [every] do not observe. *)
Definition handleTableCard (card : Card.t) (w : World) : World :=
  match selectedCard (stores w) with
  | None => w
  | Some sel =>
      if negb (isMyTurn (stores w)) then w else
      if negb (bool_decide (Card.id card ∈ capturableIds w))
         && negb (bool_decide (Card.id card ∈ pendingTableIds w)) then w else
      let next := toggle (Card.id card) (pendingTableIds w) in
      let w := set_pendingTableIds next w in
      let pendingArr := elements (pendingTableIds w) in
      match find (exact_match pendingArr) (captureOptions (stores w)) with
      | Some exactMatch => executePlay (Card.id sel) exactMatch w
      | None => w
      end
  end.

(** ** routes/game/[session_id]/+page.svelte *)

Record SessionStorage := {
  scopa_player_id : option string;
  scopa_session_id : option string;
  scopa_join_code : option string
}.

(** The branch of [onMount] taken when the [playerId] store is empty: the
    identity is restored from [sessionStorage]; [goto('/')] leaves the
    client as it is. *)
Definition restore_identity (sid : string) (storage : SessionStorage)
    (w : World) : World :=
  match scopa_player_id storage with
  | Some pid =>
      if negb (truthy_string (Some pid))
         || negb (bool_decide (scopa_session_id storage = Some sid))
      then w
      else
        let w := sessionId_set (Some sid) w in
        let w := playerId_set (Some pid) w in
        let w := if truthy_string (scopa_join_code storage)
                 then joinCode_set (scopa_join_code storage) w else w in
        connect sid pid w
  | None => w
  end.

(** [onMount]; [sid] is the route parameter. *)
Definition onMount (sid : string) (storage : SessionStorage) (w : World)
  : World :=
  match playerId (stores w) with
  | Some pid =>
      if truthy_string (Some pid) then connect sid pid w
      else restore_identity sid storage w
  | None => restore_identity sid storage w
  end.

Definition onDestroy : World → World := disconnect.

(** ** The client as a transition system *)

Definition initial_world (loc : Location) : World :=
  {| stores := initial_stores; _ws := None; _myPlayerId := None;
     sockets := []; console := []; timers := []; location := loc;
     pendingTableIds := ∅; capturableIds := ∅;
     dirty_selectedCard := false; dirty_captureOptions := false |}.

(** What can happen to the client: calls from the page and the board,
    events of the sockets, timers firing.  A tap reaches [handleHandCard]
    or [handleTableCard] only if Card.svelte dispatches the click, for a
    card that is selectable, capturable or pending: the tests the two
    handlers make again, so a tap that is not dispatched is a tap the
    handler ignores. *)
Inductive Event :=
| ev_page_mount (sid : string) (storage : SessionStorage)
| ev_page_destroy
| ev_connect (sessionId playerId : string)
| ev_disconnect
| ev_board_mount
| ev_deal_done
| ev_hand_card (card : Card.t)
| ev_table_card (card : Card.t)
| ev_cancel
| ev_socket_open (k : nat)
| ev_socket_message (k : nat) (f : Frame)
| ev_socket_error (k : nat)
| ev_socket_close (k : nat)
| ev_timer (n : nat).

(** The browser's side of a socket.  A connecting socket may open; only
    an open socket delivers messages; a socket that is not yet closed may
    fail ([error], then [close]) or close. *)
Definition socket_opens (k : nat) (w : World) : World :=
  match sockets w !! k with
  | Some sock =>
      if bool_decide (readyState sock = CONNECTING)
      then onopen (url sock)
             (set_sockets (alter (with_readyState OPEN) k (sockets w)) w)
      else w
  | None => w
  end.

Definition socket_delivers (k : nat) (f : Frame) (w : World) : World :=
  match sockets w !! k with
  | Some sock =>
      if bool_decide (readyState sock = OPEN) then onmessage f w else w
  | None => w
  end.

Definition socket_fails (k : nat) (w : World) : World :=
  match sockets w !! k with
  | Some sock =>
      if bool_decide (readyState sock = CLOSED) then w
      else onclose (onerror
             (set_sockets (alter (with_readyState CLOSED) k (sockets w)) w))
  | None => w
  end.

Definition socket_closes (k : nat) (w : World) : World :=
  match sockets w !! k with
  | Some sock =>
      if bool_decide (readyState sock = CLOSED) then w
      else onclose
             (set_sockets (alter (with_readyState CLOSED) k (sockets w)) w)
  | None => w
  end.

Definition timer_fires (n : nat) (w : World) : World :=
  match timers w !! n with
  | Some (a, _) => run_timer a (set_timers (delete n (timers w)) w)
  | None => w
  end.

Definition handle (e : Event) (w : World) : World :=
  match e with
  | ev_page_mount sid storage => onMount sid storage w
  | ev_page_destroy => onDestroy w
  | ev_connect sid pid => connect sid pid w
  | ev_disconnect => disconnect w
  | ev_board_mount => mount_board w
  | ev_deal_done => isDealing_set false w
  | ev_hand_card card => handleHandCard card w
  | ev_table_card card => handleTableCard card w
  | ev_cancel => cancelSelection w
  | ev_socket_open k => socket_opens k w
  | ev_socket_message k f => socket_delivers k f w
  | ev_socket_error k => socket_fails k w
  | ev_socket_close k => socket_closes k w
  | ev_timer n => timer_fires n w
  end.

(** One event: its handler runs to completion, then the component
    updates. *)
Definition step (w : World) (e : Event) : World := flush (handle e w).

Definition run (w : World) (es : list Event) : World := foldl step w es.

Inductive reachable : World → Prop :=
| reachable_init loc : reachable (initial_world loc)
| reachable_step w e : reachable w → reachable (step w e).

(** ** Notions used to state the properties *)

(** *** Scopa events

    The value written to [lastScopaBy] for one entry of the new state's
    players, if its count went up: what one turn of the loop emits. *)
Definition scopa_event (prev : GameState.t) (me : option string)
    (entry : string * PlayerInfo.t) : option ScopaBy :=
  if (oldScopas prev entry.1 <? PlayerInfo.scopas entry.2)%Z
  then Some {| player_id := entry.1; is_mine := bool_decide (Some entry.1 = me) |}
  else None.

(** The events of one run of the loop, in the order of emission. *)
Definition scopa_events (prev newState : GameState.t) (me : option string)
  : list ScopaBy :=
  omap (scopa_event prev me) (GameState.players newState).

(** Emitting an event: [lastScopaBy.set(ev)], then the 2500 ms timer that
    clears it. *)
Definition emit_scopa (w : World) (ev : ScopaBy) : World :=
  setTimeout clear_lastScopaBy 2500 (lastScopaBy_set (Some ev) w).

Definition emit_scopas (evs : list ScopaBy) (w : World) : World :=
  foldl emit_scopa w evs.

(** What [lastScopaBy] holds after a run of events. *)
Definition last_scopa (evs : list ScopaBy) (old : option ScopaBy)
  : option ScopaBy :=
  match last evs with Some ev => Some ev | None => old end.

Definition owned_by (pid : string) (ev : ScopaBy) : bool :=
  bool_decide (player_id ev = pid).

(** *** Sending

    The test [_send] makes: the socket [_ws] refers to exists and is
    open. *)
Definition socket_open (w : World) : bool :=
  match _ws w with
  | Some k =>
      match sockets w !! k with
      | Some sock => bool_decide (readyState sock = OPEN)
      | None => false
      end
  | None => false
  end.

(** The frames handed to the sockets so far, socket by socket. *)
Definition transmitted (w : World) : list (list OutMsg) :=
  sentFrames <$> sockets w.

(** *** Interaction state *)

Definition interaction_cleared (w : World) : Prop :=
  selectedCard (stores w) = None
  ∧ captureOptions (stores w) = []
  ∧ capturesLoaded (stores w) = false
  ∧ pendingTableIds w = ∅.

(** The two guards of [handleTableCard]. *)
Definition table_guard (card : Card.t) (w : World) : bool :=
  bool_decide (is_Some (selectedCard (stores w)))
  && isMyTurn (stores w)
  && (bool_decide (Card.id card ∈ capturableIds w)
      || bool_decide (Card.id card ∈ pendingTableIds w)).

Definition pending_within_options (w : World) : Prop :=
  pendingTableIds w ⊆ list_to_set (concat (captureOptions (stores w))).

(** *** Invariants

    Between two events the component is clean, [capturableIds] is the
    flattened [captureOptions], nothing is pending without a selected card,
    and a card is selected only on the local player's turn. *)
Record board_inv (w : World) : Prop := {
  inv_clean_selected : dirty_selectedCard w = false;
  inv_clean_options : dirty_captureOptions w = false;
  inv_capturable :
    capturableIds w = list_to_set (concat (captureOptions (stores w)));
  inv_pending : selectedCard (stores w) = None → pendingTableIds w = ∅;
  inv_turn : selectedCard (stores w) ≠ None → isMyTurn (stores w) = true
}.

(** What holds when a handler returns, before the component updates. *)
Record board_pre (w : World) : Prop := {
  pre_capturable : dirty_captureOptions w = false →
    capturableIds w = list_to_set (concat (captureOptions (stores w)));
  pre_pending : dirty_selectedCard w = false →
    selectedCard (stores w) = None → pendingTableIds w = ∅;
  pre_turn : selectedCard (stores w) ≠ None → isMyTurn (stores w) = true
}.

(** Every live socket is the one [r] refers to. *)
Definition only_live (r : option nat) (l : list WebSocket) : Prop :=
  ∀ k sock, l !! k = Some sock → live sock = true → r = Some k.

Definition socket_inv (w : World) : Prop := only_live (_ws w) (sockets w).

(** ** Example runs *)

Definition example_location : Location :=
  {| protocol := "https:"; host := "scopa.example" |}.

Definition example_storage : SessionStorage :=
  {| scopa_player_id := Some "p1"; scopa_session_id := Some "s1";
     scopa_join_code := Some "ABCD" |}.

Definition card_A := Card.mk "A" "oro" 5 "/assets/napolitane/oro_5.png".
Definition card_B := Card.mk "B" "coppe" 8 "/assets/napolitane/coppe_8.png".
Definition card_C := Card.mk "C" "spade" 2 "/assets/napolitane/spade_2.png".
Definition card_c1 := Card.mk "c1" "bastoni" 2 "/assets/napolitane/bastoni_2.png".
Definition card_c2 := Card.mk "c2" "coppe" 3 "/assets/napolitane/coppe_3.png".
Definition card_c3 := Card.mk "c3" "spade" 5 "/assets/napolitane/spade_5.png".

(** The local player p1 is to move; p2 has one scopa.  With 2, 3 and 5 on
    the table, A (a 5) takes [c1, c2] or [c3], B (an 8) takes [c2, c3],
    C (a 2) takes [c1]. *)
Definition example_state : GameState.t :=
  GameState.mk "playing" [card_c1; card_c2; card_c3]
    [("p1", PlayerInfo.mk 3 0 0); ("p2", PlayerInfo.mk 3 0 1)]
    [("p1", 0%Z); ("p2", 0%Z)] 30 true [card_A; card_B; card_C].

(** After p1's play, p1 has a scopa; it is p2's turn. *)
Definition swept_state : GameState.t :=
  GameState.mk "playing" []
    [("p1", PlayerInfo.mk 2 4 1); ("p2", PlayerInfo.mk 3 0 1)]
    [("p1", 0%Z); ("p2", 0%Z)] 30 false [card_B; card_C].

(** The creator of a session reloads the game page and waits in the
    lobby; then the opponent joins. *)
Definition lobby_world : World :=
  run (initial_world example_location)
    [ev_page_mount "s1" example_storage; ev_socket_open 0;
     ev_socket_message 0 (frame_json msg_waiting)].


Definition waiting_send : World := _send (get_captures "c7") lobby_world.

(** A connection is open. *)
Definition connected_world : World :=
  run (initial_world example_location)
    [ev_connect "s1" "p1"; ev_socket_open 0].

Definition connected_socket : WebSocket :=
  {| url := "wss://scopa.example/ws/s1/p1"; readyState := OPEN;
     sentFrames := [] |}.

(** The first state of a round has arrived and the board is shown. *)
Definition playing_world : World :=
  run connected_world
    [ev_socket_message 0 (frame_json (msg_state example_state));
     ev_board_mount].

(** The player selected card A; no answer to [get_captures] yet. *)
Definition selected_world : World := step playing_world (ev_hand_card card_A).

(** The server offered [c1, c2] or [c3], and the player tapped c1. *)
Definition partial_world : World :=
  run selected_world
    [ev_socket_message 0 (frame_json (msg_captures [["c1"; "c2"]; ["c3"]]));
     ev_table_card card_c1].

Definition partial_socket : WebSocket :=
  {| url := "wss://scopa.example/ws/s1/p1"; readyState := OPEN;
     sentFrames := [get_captures "A"] |}.

(** The player selects A, then B before the answer for A arrives; the
    answer for A is taken for B's, c1 is tapped, then the answer for B
    replaces the options. *)
Definition stale_world : World :=
  run selected_world
    [ev_hand_card card_B;
     ev_socket_message 0 (frame_json (msg_captures [["c1"; "c2"]; ["c3"]]));
     ev_table_card card_c1;
     ev_socket_message 0 (frame_json (msg_captures [["c2"; "c3"]]))].

(** The same with C selected second: its answer, [c1], is exactly the
    pending set. *)
Definition overtaken_world : World :=
  run selected_world
    [ev_hand_card card_C;
     ev_socket_message 0 (frame_json (msg_captures [["c1"; "c2"]; ["c3"]]));
     ev_table_card card_c1;
     ev_socket_message 0 (frame_json (msg_captures [["c1"]]))].

(** The opponent left during the game: the status is [disconnected], the
    socket is still open and the board still shown. *)
Definition abandoned_world : World :=
  step playing_world
    (ev_socket_message 0 (frame_json msg_opponent_disconnected)).

(** ** Card.svelte

    [handleClick] dispatches the click exactly when one of the three
    props holds; the button is [disabled] when none does. *)
Definition Card_handleClick (selectable capturable pending : bool) : bool :=
  selectable || capturable || pending.

Definition Card_disabled (selectable capturable pending : bool) : bool :=
  negb selectable && negb capturable && negb pending.

(** ** GameBoard.svelte: what the template shows *)

(** [!!$selectedCard] *)
Definition has_selection (w : World) : bool :=
  match selectedCard (stores w) with Some _ => true | None => false end.

(** The props of a table card:
    [capturable={!!$selectedCard && isMyTurnNow && capturableIds.has(card.id)
                 && !pendingTableIds.has(card.id)}] and
    [pending={!!$selectedCard && isMyTurnNow && pendingTableIds.has(card.id)}]. *)
Definition table_capturable (card : Card.t) (w : World) : bool :=
  has_selection w && isMyTurn (stores w)
  && bool_decide (Card.id card ∈ capturableIds w)
  && negb (bool_decide (Card.id card ∈ pendingTableIds w)).

Definition table_pending (card : Card.t) (w : World) : bool :=
  has_selection w && isMyTurn (stores w)
  && bool_decide (Card.id card ∈ pendingTableIds w).

(** The props of a hand card: [selectable={isMyTurnNow}] and
    [selected={$selectedCard?.id === card.id}]. *)
Definition hand_selectable (w : World) : bool := isMyTurn (stores w).

Definition hand_selected (card : Card.t) (w : World) : bool :=
  match selectedCard (stores w) with
  | Some sel => bool_decide (Card.id sel = Card.id card)
  | None => false
  end.

(** A click on a card of the table, and on a card of the hand, as the
    Card component passes it on: [on:click={() => handleTableCard(card)}]
    and [on:click={() => handleHandCard(card)}]. *)
Definition click_table_card (card : Card.t) (w : World) : World :=
  if Card_handleClick false (table_capturable card w) (table_pending card w)
  then handleTableCard card w else w.

Definition click_hand_card (card : Card.t) (w : World) : World :=
  if Card_handleClick (hand_selectable w) false false
  then handleHandCard card w else w.

(** The capture hint strip, shown [{#if $selectedCard && isMyTurnNow}]:
    which of its four texts is chosen.  [hint_selected] carries the suit
    and the value the text shows. *)
Inductive CaptureHint :=
| hint_complete_or_undo
| hint_tap_glowing
| hint_no_captures
| hint_selected (suit : string) (value : Z).

Definition capture_hint (w : World) : option CaptureHint :=
  match selectedCard (stores w) with
  | Some sel =>
      if isMyTurn (stores w) then
        Some (if bool_decide (0 < length (captureOptions (stores w)))
                 && bool_decide (0 < size (pendingTableIds w))
              then hint_complete_or_undo
              else if bool_decide (0 < length (captureOptions (stores w)))
              then hint_tap_glowing
              else if capturesLoaded (stores w) then hint_no_captures
              else hint_selected (Card.suit sel) (Card.value sel))
      else None
  | None => None
  end.

(** ** +page.svelte: which screen is shown *)

Definition has_gameState (s : Stores) : bool :=
  match gameState s with Some _ => true | None => false end.

Definition isConnecting (s : Stores) : bool :=
  bool_decide (wsStatus s = connecting).
Definition isWaitingForOpponent (s : Stores) : bool :=
  bool_decide (wsStatus s = waiting) || isWaiting s.
Definition isPlaying (s : Stores) : bool :=
  bool_decide (wsStatus s = connected) && has_gameState s.
Definition isDisconnected (s : Stores) : bool :=
  bool_decide (wsStatus s = disconnected).

(** The four branches of the page.  The lobby shows the join code if
    there is one; the game screen shows the deal animation (with the round
    and the deal type) while [isDealing], and mounts GameBoard
    [{#if !$isDealing || $gameState}]. *)
Inductive PageView :=
| page_connecting
| page_lobby (code : option string)
| page_disconnected
| page_game (animation : option (Z * DealType)) (board : bool).

Definition page_view (s : Stores) : PageView :=
  if isConnecting s then page_connecting
  else if isWaitingForOpponent s then
    page_lobby (if truthy_string (joinCode s) then joinCode s else None)
  else if isDisconnected s && negb (has_gameState s) then page_disconnected
  else page_game
         (if isDealing s then Some (roundNumber s, dealType s) else None)
         (negb (isDealing s) || has_gameState s).

(** ** DealAnimation.svelte *)

Inductive Dest := dest_table | dest_player | dest_opponent.

Record DealItem := { dest : Dest; idx : Z }.

Definition SEQUENCE_FULL : list DealItem :=
  [ {| dest := dest_table; idx := 0 |}; {| dest := dest_table; idx := 1 |};
    {| dest := dest_table; idx := 2 |}; {| dest := dest_table; idx := 3 |};
    {| dest := dest_player; idx := 0 |}; {| dest := dest_opponent; idx := 0 |};
    {| dest := dest_player; idx := 1 |}; {| dest := dest_opponent; idx := 1 |};
    {| dest := dest_player; idx := 2 |}; {| dest := dest_opponent; idx := 2 |} ].

Definition SEQUENCE_HANDS : list DealItem :=
  [ {| dest := dest_player; idx := 0 |}; {| dest := dest_opponent; idx := 0 |};
    {| dest := dest_player; idx := 1 |}; {| dest := dest_opponent; idx := 1 |};
    {| dest := dest_player; idx := 2 |}; {| dest := dest_opponent; idx := 2 |} ].

(** [type === 'hands' ? SEQUENCE_HANDS : SEQUENCE_FULL] *)
Definition SEQUENCE (type : DealType) : list DealItem :=
  match type with hands => SEQUENCE_HANDS | full => SEQUENCE_FULL end.

Definition DEAL_INTERVAL : Z := 130.
Definition CARD_DURATION : Z := 500.
Definition FINISH_DELAY : Z := 600.

(** [getTranslate]: [tx] is the number of pixels of the [px] value, for a
    whole [idx] ([(idx - 1.5) * 80] is [80 * idx - 120]); [ty] is the text
    of the value. *)
Definition getTranslate (d : Dest) (i : Z) : Z * string :=
  match d with
  | dest_table => ((80 * i - 120)%Z, "0px")
  | dest_opponent => (((i - 1) * 72)%Z, "-42vh")
  | dest_player => (((i - 1) * 72)%Z, "42vh")
  end.

(** A flying card: the item, its translation, its two flags, its delay. *)
Record FlyingCard := {
  item : DealItem;
  translate : Z * string;
  flying : bool;
  landed : bool;
  delay : Z
}.

(** [sequence.map((item, i) => ({...}))], the initial value of [cards]
    for the sequence [sequence]. *)
Definition cards (sequence : list DealItem) : list FlyingCard :=
  imap (λ i it,
          {| item := it; translate := getTranslate (dest it) (idx it);
             flying := false; landed := false;
             delay := (Z.of_nat i * DEAL_INTERVAL)%Z |})
       sequence.

(** What the timers of [onMount] do, each with the sum of the delays of
    the [setTimeout] calls that lead to it: the deck glows after 350 ms;
    card [i] takes off [delay] later and lands [CARD_DURATION] after
    that; [done] is dispatched [totalMs] after the glow. *)
Inductive DealStep :=
| deal_glow
| deal_fly (i : nat)
| deal_land (i : nat)
| deal_done.

Definition totalMs (sequence : list DealItem) : Z :=
  (Z.of_nat (length sequence) * DEAL_INTERVAL
   + CARD_DURATION + FINISH_DELAY)%Z.

Definition deal_timers (sequence : list DealItem) : list (Z * DealStep) :=
  (350%Z, deal_glow)
  :: concat (imap (λ i card,
                     [((350 + delay card)%Z, deal_fly i);
                      ((350 + delay card + CARD_DURATION)%Z, deal_land i)])
                  (cards sequence))
  ++ [((350 + totalMs sequence)%Z, deal_done)].

(** ** CardBack.svelte

    [stackCount = Math.min(count, 4)]; [Array(stackCount)] has that many
    slots, and throws a [RangeError] for a negative length; the badge is
    shown [{#if count > 0}]. *)
Definition stackCount (count : Z) : Z := Z.min count 4.

Definition stack_backs (count : Z) : option (list Z) :=
  if (stackCount count <? 0)%Z then None
  else Some (Z.of_nat <$> seq 0 (Z.to_nat (stackCount count))).

Definition badge_shown (count : Z) : bool := (0 <? count)%Z.

(** ** More notions used to state the properties *)

(** All the frames handed to the sockets. *)
Definition frames (w : World) : list OutMsg := concat (transmitted w).

Definition is_tap (e : Event) : Prop :=
  match e with
  | ev_hand_card _ | ev_table_card _ => True
  | _ => False
  end.

(** [_ws] refers to the socket created last. *)
Definition ws_is_last (r : option nat) (l : list WebSocket) : Prop :=
  ∀ k, r = Some k → S k = length l.

(** Socket [k] delivers frames: it exists and is open. *)
Definition delivers (k : nat) (w : World) : bool :=
  match sockets w !! k with
  | Some sock => bool_decide (readyState sock = OPEN)
  | None => false
  end.

(** Between two events: options are held only once the server has
    answered. *)
Definition loaded_inv (w : World) : Prop :=
  capturesLoaded (stores w) = false → captureOptions (stores w) = [].

(** ** More example runs *)

(** The page connects a second time and the new connection opens; the
    first socket is closing, its [close] event still to come. *)
Definition reconnected_world : World :=
  run connected_world [ev_connect "s1" "p1"; ev_socket_open 1].

Definition closing_socket : WebSocket :=
  {| url := "wss://scopa.example/ws/s1/p1"; readyState := CLOSING;
     sentFrames := [] |}.

(** The result of a first round. *)
Definition example_result : RoundOver :=
  {| round_number := 1; round_scores := [("p1", 3%Z); ("p2", 1%Z)];
     cumulative := [("p1", 3%Z); ("p2", 1%Z)] |}.

(** * Properties *)

Lemma run_reachable_from w es : reachable w → reachable (run w es).
Proof.
  unfold run. revert w.
  induction es as [|e es IH]; intros w Hw; simpl; [done|].
  apply IH. by constructor.
Qed.

Lemma run_reachable loc es : reachable (run (initial_world loc) es).
Proof. apply run_reachable_from. constructor. Qed.

(** ** Reading a world through the writes made to it

    [wsimpl] reads a field of a world through the writes made to it;
    [unfold_handlers] replaces the handlers by their bodies. *)

Ltac destruct_world w :=
  let s := fresh "s" in
  destruct w as [s ? ? ? ? ? ? ? ? ? ?]; destruct s.

Ltac wsimpl :=
  cbn [selectedCard_set captureOptions_set sessionId_set playerId_set
       opponentId_set joinCode_set wsStatus_set gameState_set roundResult_set
       errorMessage_set isWaiting_set isDealing_set roundNumber_set
       dealType_set capturesLoaded_set lastScopaBy_set on_stores
       console_write setTimeout safe_not_equal
       with_sessionId with_playerId with_opponentId with_joinCode
       with_wsStatus with_gameState with_selectedCard with_captureOptions
       with_roundResult with_errorMessage with_isWaiting with_isDealing
       with_roundNumber with_dealType with_capturesLoaded with_lastScopaBy
       set_stores set_ws set_myPlayerId set_sockets set_console set_timers
       set_pendingTableIds set_capturableIds set_dirty_selectedCard
       set_dirty_captureOptions
       stores _ws _myPlayerId sockets console timers location
       pendingTableIds capturableIds dirty_selectedCard dirty_captureOptions
       sessionId playerId opponentId joinCode wsStatus gameState selectedCard
       captureOptions roundResult errorMessage isWaiting isDealing
       roundNumber dealType capturesLoaded lastScopaBy
       negb orb andb] in *.

Ltac unfold_handlers :=
  unfold step, handle, mount_board, onMount, restore_identity, onDestroy,
    handleHandCard, handleTableCard, executePlay, cancelSelection,
    sendPlay, sendGetCaptures, socket_opens, socket_delivers, socket_fails,
    socket_closes, timer_fires, onopen, onmessage, onerror, onclose,
    run_timer, _dispatch, connect, disconnect, _send, flush in *.

Ltac negb_hyps :=
  repeat match goal with
         | H : negb ?b = _ |- _ =>
             destruct b eqn:?; cbn [negb] in H; try discriminate H; clear H
         end.

(** ** The scopa loop *)

Lemma emit_scopa_myPlayerId w ev :
  _myPlayerId (emit_scopa w ev) = _myPlayerId w.
Proof. reflexivity. Qed.

Lemma detect_scopa_emits prev w entry :
  detect_scopa prev w entry
  = match scopa_event prev (_myPlayerId w) entry with
    | Some ev => emit_scopa w ev
    | None => w
    end.
Proof.
  destruct entry as [pid pinfo]. unfold detect_scopa, scopa_event. simpl.
  by destruct (oldScopas prev pid <? PlayerInfo.scopas pinfo)%Z.
Qed.

(** The loop performs the emissions of [scopa_events], in order. *)
Lemma detect_scopas_emits prev newState w :
  detect_scopas prev newState w
  = emit_scopas (scopa_events prev newState (_myPlayerId w)) w.
Proof.
  unfold detect_scopas, scopa_events, emit_scopas.
  generalize (GameState.players newState) as ps. intros ps. revert w.
  induction ps as [|entry ps IH]; intros w; [done|].
  simpl. rewrite detect_scopa_emits.
  destruct (scopa_event prev (_myPlayerId w) entry) as [ev|]; simpl.
  - rewrite IH. by rewrite emit_scopa_myPlayerId.
  - apply IH.
Qed.

(** The loop as one write: the last event emitted, if any, ends up in
    [lastScopaBy], and one timer per event is queued. *)
Lemma emit_scopas_closed evs w :
  emit_scopas evs w
  = set_timers (timers w ++ replicate (length evs) (clear_lastScopaBy, 2500%Z))
      (lastScopaBy_set (last_scopa evs (lastScopaBy (stores w))) w).
Proof.
  unfold emit_scopas. revert w.
  induction evs as [|ev evs IH]; intros w.
  - destruct_world w. wsimpl. simpl. by rewrite app_nil_r.
  - simpl foldl. rewrite IH. clear IH. destruct_world w.
    unfold emit_scopa, last_scopa. rewrite last_cons.
    wsimpl. cbn [length replicate].
    rewrite <- app_assoc. by destruct (last evs).
Qed.

Ltac expose_scopas :=
  repeat first [rewrite detect_scopas_emits | rewrite emit_scopas_closed].

Lemma scopa_event_owner prev me entry ev :
  scopa_event prev me entry = Some ev → player_id ev = entry.1.
Proof. unfold scopa_event. case_match; intros; by simplify_eq. Qed.

Lemma scopa_events_absent prev me pid (ps : list (string * PlayerInfo.t)) :
  pid ∉ ps.*1 →
  List.filter (owned_by pid) (omap (scopa_event prev me) ps) = [].
Proof.
  induction ps as [|[p info] ps IH]; intros Hnot; [done|].
  rewrite fmap_cons, not_elem_of_cons in Hnot. destruct Hnot as [Hne Hnot].
  simpl in *.
  destruct (scopa_event prev me (p, info)) as [ev|] eqn:E; [|by apply IH].
  simpl. apply scopa_event_owner in E. simpl in E. unfold owned_by at 1.
  rewrite bool_decide_eq_false_2 by congruence. by apply IH.
Qed.

Lemma scopa_events_present prev me pid info
    (ps : list (string * PlayerInfo.t)) :
  NoDup ps.*1 →
  lookup_player pid ps = Some info →
  (oldScopas prev pid < PlayerInfo.scopas info)%Z →
  List.filter (owned_by pid) (omap (scopa_event prev me) ps)
  = [{| player_id := pid; is_mine := bool_decide (Some pid = me) |}].
Proof.
  induction ps as [|[p i] ps IH]; intros Hnd Hlook Hlt; [done|].
  rewrite fmap_cons in Hnd. apply NoDup_cons in Hnd as [Hp Hnd].
  simpl in *. case_bool_decide as Hpid.
  - simplify_eq/=. unfold scopa_event at 1. simpl.
    rewrite (proj2 (Z.ltb_lt _ _) Hlt). simpl. unfold owned_by at 1. simpl.
    rewrite bool_decide_eq_true_2 by done.
    by rewrite scopa_events_absent.
  - simpl. destruct (scopa_event prev me (p, i)) as [ev|] eqn:E;
      [|by apply IH].
    simpl. apply scopa_event_owner in E. simpl in E. unfold owned_by at 1.
    rewrite bool_decide_eq_false_2 by congruence. by apply IH.
Qed.

Lemma dispatch_state_scopa w newState :
  lastScopaBy (stores (_dispatch (msg_state newState) w))
  = match gameState (stores w) with
    | Some prev => lastScopaBy (stores (detect_scopas prev newState w))
    | None => lastScopaBy (stores w)
    end
  ∧ timers (_dispatch (msg_state newState) w)
  = match gameState (stores w) with
    | Some prev => timers (detect_scopas prev newState w)
    | None => timers w
    end.
Proof. unfold _dispatch. by repeat (wsimpl; case_match). Qed.

(** ** The board invariant holds in every reachable world *)

Lemma flush_board_inv w : board_pre w → board_inv (flush w).
Proof.
  intros [H1 H2 H3]. unfold flush.
  destruct (dirty_captureOptions w) eqn:E1, (dirty_selectedCard w) eqn:E2,
    (selectedCard (stores w)) eqn:E3;
    split; repeat (wsimpl; rewrite ?E1, ?E2, ?E3); auto; try done.
Qed.

Ltac board_crush H1 H2 Hsel :=
  repeat (wsimpl; case_match); expose_scopas;
  split; wsimpl; rewrite ?H1, ?H2, ?Hsel; wsimpl; intros;
  unfold isMyTurn in *; wsimpl;
  repeat case_match; simplify_eq; negb_hyps;
  try done; try congruence; auto.

Lemma handle_board_pre e w : board_inv w → board_pre (handle e w).
Proof.
  intros [H1 H2 H3 H4 H5].
  destruct (selectedCard (stores w)) as [sel|] eqn:Hsel.
  all: destruct e as [| | | | | | | | | | k [d|[]] | | |].
  all: unfold_handlers; board_crush H1 H2 Hsel.
Qed.

Lemma step_board_inv w e : board_inv w → board_inv (step w e).
Proof. intros H. by apply flush_board_inv, handle_board_pre. Qed.

Lemma initial_board_inv loc : board_inv (initial_world loc).
Proof. by split. Qed.

Lemma reachable_board_inv w : reachable w → board_inv w.
Proof.
  induction 1; [apply initial_board_inv | by apply step_board_inv].
Qed.

(** ** The socket invariant holds in every reachable world *)

Lemma only_live_alter (f : WebSocket → WebSocket) (n : nat) r
    (l : list WebSocket) :
  (∀ s, l !! n = Some s → live (f s) = true → live s = true) →
  only_live r l → only_live r (alter f n l).
Proof.
  intros Hf Hl k sock Hk Hlive. destruct (decide (n = k)) as [->|Hne].
  - rewrite list_lookup_alter_eq in Hk.
    destruct (l !! k) as [s|] eqn:E; simplify_eq/=. eauto.
  - rewrite list_lookup_alter_ne in Hk by done. eauto.
Qed.

Lemma only_live_send m n r l :
  only_live r l → only_live r (alter (socket_send m) n l).
Proof. apply only_live_alter. auto. Qed.

Lemma only_live_closed n r l :
  only_live r l → only_live r (alter (with_readyState CLOSED) n l).
Proof. apply only_live_alter. intros s _. done. Qed.

Lemma only_live_open n r l s :
  l !! n = Some s → bool_decide (readyState s = CONNECTING) = true →
  only_live r l → only_live r (alter (with_readyState OPEN) n l).
Proof.
  intros Hn Hc. apply only_live_alter. intros s' Hs' _. simplify_eq.
  apply bool_decide_eq_true in Hc. unfold live. by rewrite Hc.
Qed.

Lemma socket_close_dead s : live (socket_close s) = false.
Proof.
  unfold socket_close, live.
  destruct (readyState s) eqn:E; simpl; by rewrite ?E.
Qed.

Lemma only_live_close n l :
  only_live (Some n) l → only_live None (alter socket_close n l).
Proof.
  intros Hl k sock Hk Hlive. destruct (decide (n = k)) as [->|Hne].
  - rewrite list_lookup_alter_eq in Hk.
    destruct (l !! k) as [s|] eqn:E; simplify_eq/=.
    by rewrite socket_close_dead in Hlive.
  - rewrite list_lookup_alter_ne in Hk by done.
    specialize (Hl _ _ Hk Hlive). congruence.
Qed.

Lemma only_live_new u l :
  only_live None l → only_live (Some (length l)) (l ++ [new_WebSocket u]).
Proof.
  intros Hl k sock Hk Hlive.
  apply lookup_app_Some in Hk as [Hk|[Hlen Hk]].
  - by specialize (Hl _ _ Hk Hlive).
  - apply list_lookup_singleton_Some in Hk as [Hk _]. f_equal. lia.
Qed.

Ltac socket_crush :=
  unfold socket_inv in *; unfold_handlers;
  repeat (wsimpl; case_match); expose_scopas; wsimpl;
  repeat match goal with H : _ws _ = _ |- _ => rewrite H in * end;
  eauto using only_live_send, only_live_closed, only_live_open,
    only_live_close, only_live_new.

Lemma step_socket_inv w e : socket_inv w → socket_inv (step w e).
Proof.
  intros H. destruct e as [| | | | | | | | | | k [d|[]] | | |].
  all: socket_crush.
Qed.

Lemma reachable_socket_inv w : reachable w → socket_inv w.
Proof.
  induction 1 as [loc|w e _ IH]; [|by apply step_socket_inv].
  intros k sock Hk. by destruct k.
Qed.

(** ** Sending *)

Lemma send_when_open (m : OutMsg) (w : World) :
  socket_open w = true →
  ∃ k sock, _ws w = Some k ∧ sockets w !! k = Some sock
    ∧ _send m w = set_sockets (<[k := socket_send m sock]> (sockets w)) w.
Proof.
  unfold socket_open, _send. intros H.
  destruct (_ws w) as [k|]; [|done].
  destruct (sockets w !! k) as [sock|] eqn:E; [|done].
  rewrite H. exists k, sock. split; [done|]. split; [done|].
  f_equal. apply list_eq. intros j. destruct (decide (k = j)) as [->|].
  - rewrite list_lookup_alter_eq, list_lookup_insert_eq, E; [done|].
    by eapply lookup_lt_Some.
  - by rewrite list_lookup_alter_ne, list_lookup_insert_ne.
Qed.

Lemma send_when_closed (m : OutMsg) (w : World) :
  socket_open w = false → _send m w = console_write (log_cannot_send m) w.
Proof.
  unfold socket_open, _send. intros H.
  destruct (_ws w) as [k|]; [|done].
  destruct (sockets w !! k) as [sock|] eqn:E; [|done]. by rewrite H.
Qed.


Lemma executePlay_cleared cardId captIds w :
  interaction_cleared (executePlay cardId captIds w).
Proof. by unfold interaction_cleared, executePlay. Qed.

Lemma cancelSelection_cleared w : interaction_cleared (cancelSelection w).
Proof. by unfold interaction_cleared, cancelSelection. Qed.

Lemma executePlay_wire cardId captIds w :
  sockets (executePlay cardId captIds w) = sockets (sendPlay cardId captIds w)
  ∧ console (executePlay cardId captIds w)
    = console (sendPlay cardId captIds w).
Proof. by unfold executePlay. Qed.

(** ** Messages *)

Lemma flush_stores w : stores (flush w) = stores w.
Proof. unfold flush. by repeat case_match. Qed.

Lemma step_message w k sock msg :
  sockets w !! k = Some sock → readyState sock = OPEN →
  step w (ev_socket_message k (frame_json msg)) = flush (_dispatch msg w).
Proof.
  intros Hk Ho. unfold step, handle, socket_delivers, onmessage.
  by rewrite Hk, Ho.
Qed.


(** ** Exact matches *)







(** ** Toggling *)

Lemma toggle_involutive x (P : gset string) : toggle x (toggle x P) = P.
Proof.
  unfold toggle. destruct (decide (x ∈ P)) as [Hin|Hnot].
  - rewrite decide_False by set_solver.
    apply set_eq. intros y. destruct (decide (y = x)); set_solver.
  - rewrite decide_True by set_solver. set_solver.
Qed.

Lemma toggle_within x (P Q : gset string) :
  P ⊆ Q → x ∈ Q ∨ x ∈ P → toggle x P ⊆ Q.
Proof. intros HP Hx. unfold toggle. case_decide; set_solver. Qed.


(** A tap on a table card that completes no option only updates the
    pending set. *)
Lemma tap_table_quiet (w : World) (card : Card.t) :
  dirty_selectedCard w = false → dirty_captureOptions w = false →
  find (exact_match (elements (toggle (Card.id card) (pendingTableIds w))))
    (captureOptions (stores w)) = None →
  let w1 := step w (ev_table_card card) in
  stores w1 = stores w ∧ capturableIds w1 = capturableIds w
  ∧ dirty_selectedCard w1 = false ∧ dirty_captureOptions w1 = false
  ∧ pendingTableIds w1
    = if table_guard card w then toggle (Card.id card) (pendingTableIds w)
      else pendingTableIds w.
Proof.
  intros H1 H2 Hfind w1. subst w1. unfold table_guard.
  unfold step, handle, handleTableCard, flush.
  destruct (selectedCard (stores w)) as [sel|] eqn:Hsel;
    destruct (isMyTurn (stores w)) eqn:Hturn;
    destruct (bool_decide (Card.id card ∈ capturableIds w)) eqn:Hc;
    destruct (bool_decide (Card.id card ∈ pendingTableIds w)) eqn:Hp;
    cbn [negb andb orb];
    repeat (progress (wsimpl; rewrite ?Hfind, ?H1, ?H2, ?Hsel));
    try (rewrite bool_decide_eq_true_2 by eauto);
    try (rewrite bool_decide_eq_false_2 by (intros [? ?]; done));
    done.
Qed.

(** ** The example runs are runs *)

Lemma reachable_lobby : reachable lobby_world.
Proof. apply run_reachable. Qed.

Lemma reachable_connected : reachable connected_world.
Proof. apply run_reachable. Qed.

Lemma reachable_playing : reachable playing_world.
Proof. apply run_reachable_from, reachable_connected. Qed.

Lemma reachable_selected : reachable selected_world.
Proof. apply reachable_step, reachable_playing. Qed.

Lemma reachable_partial : reachable partial_world.
Proof. apply run_reachable_from, reachable_selected. Qed.

Lemma reachable_stale : reachable stale_world.
Proof. apply run_reachable_from, reachable_selected. Qed.

Lemma reachable_overtaken : reachable overtaken_world.
Proof. apply run_reachable_from, reachable_selected. Qed.

Lemma reachable_abandoned : reachable abandoned_world.
Proof. apply reachable_step, reachable_playing. Qed.

Lemma partial_world_fields :
  selectedCard (stores partial_world) = Some card_A
  ∧ captureOptions (stores partial_world) = [["c1"; "c2"]; ["c3"]]
  ∧ pendingTableIds partial_world = {["c1"]}
  ∧ capturableIds partial_world = {["c1"]} ∪ {["c2"]} ∪ {["c3"]}
  ∧ isMyTurn (stores partial_world) = true
  ∧ sockets partial_world = [partial_socket].
Proof. vm_compute. repeat split. Qed.

(** * The claims *)

(** ** C1: an exact match plays, a partial subset does not *)



(** ** C2: the [state] message *)

(** C2.  A [state] message delivered in a reachable world: the payload
    becomes [gameState]; [errorMessage] and [roundResult] are cleared;
    [lastScopaBy] and the timers are those the scopa loop leaves when run
    against the state held before the message (untouched if there was
    none); and when the payload's [is_human_turn] is false, the selected
    card, the capture options, [capturesLoaded] and, at the component's
    update, the pending set are cleared, whatever was pending.  When it is
    true they are kept. *)
Theorem state_message_replaces_state (w : World) (k : nat) (sock : WebSocket)
    (newState : GameState.t) :
  reachable w →
  sockets w !! k = Some sock → readyState sock = OPEN →
  let w' := step w (ev_socket_message k (frame_json (msg_state newState))) in
  gameState (stores w') = Some newState
  ∧ errorMessage (stores w') = None
  ∧ roundResult (stores w') = None
  ∧ match gameState (stores w) with
    | Some prev =>
        lastScopaBy (stores w')
        = lastScopaBy (stores (detect_scopas prev newState w))
        ∧ timers w' = timers (detect_scopas prev newState w)
    | None =>
        lastScopaBy (stores w') = lastScopaBy (stores w)
        ∧ timers w' = timers w
    end
  ∧ (GameState.is_human_turn newState = false → interaction_cleared w')
  ∧ (GameState.is_human_turn newState = true →
       selectedCard (stores w') = selectedCard (stores w)
       ∧ captureOptions (stores w') = captureOptions (stores w)
       ∧ capturesLoaded (stores w') = capturesLoaded (stores w)
       ∧ pendingTableIds w' = pendingTableIds w).
Proof.
  intros Hw Hk Ho w'. subst w'. rewrite (step_message _ _ _ _ Hk Ho).
  destruct (reachable_board_inv w Hw) as [H1 H2 H3 H4 H5].
  unfold interaction_cleared.
  destruct (selectedCard (stores w)) as [sel|] eqn:Hsel;
    destruct (GameState.is_human_turn newState) eqn:Hturn;
    destruct (gameState (stores w)) as [prev|] eqn:Hprev;
    unfold _dispatch, flush; rewrite ?Hturn, ?Hprev; wsimpl;
    expose_scopas; repeat (progress (wsimpl; rewrite ?H1, ?H2, ?Hsel));
    repeat split; try done; auto.
Qed.

(** With c1 pending out of [c1, c2], a state in which it is the opponent's
    turn clears the interaction state. *)
Lemma state_message_replaces_state_witness :
  reachable partial_world
  ∧ sockets partial_world !! 0 = Some partial_socket
  ∧ readyState partial_socket = OPEN
  ∧ pendingTableIds partial_world = {["c1"]}
  ∧ interaction_cleared
      (step partial_world
         (ev_socket_message 0 (frame_json (msg_state swept_state)))).
Proof.
  destruct partial_world_fields as (_ & _ & Hpend & _ & _ & Hsock).
  assert (sockets partial_world !! 0 = Some partial_socket) as Hk.
  { rewrite Hsock. reflexivity. }
  split; [exact reachable_partial|]. split; [exact Hk|].
  split; [reflexivity|]. split; [exact Hpend|].
  destruct (state_message_replaces_state partial_world 0 partial_socket
              swept_state reachable_partial Hk eq_refl)
    as (_ & _ & _ & _ & Hclear & _).
  apply Hclear. reflexivity.
Defined.

(** ** C3: scopa detection *)

(** C3.  On a [state] message: with no previous state, [lastScopaBy] and
    the timers are untouched, nothing is emitted.  With a previous state
    [prev], the loop performs the emissions [evs] in order, each a write
    of [{player_id, is_mine}] to [lastScopaBy] followed by a 2500 ms timer
    that clears it; for every player found in both states whose [scopas]
    went up, exactly one of these events is that player's, with [is_mine]
    telling whether the player is [_myPlayerId] (the keys of the new
    state's [players] object being distinct); and for new players A, B
    with counts 1, 1 against previous counts 0, 1, the events are the
    single event of A. *)
Theorem scopa_detection (w : World) (newState : GameState.t) :
  let w' := _dispatch (msg_state newState) w in
  (gameState (stores w) = None →
     lastScopaBy (stores w') = lastScopaBy (stores w) ∧ timers w' = timers w)
  ∧ (∀ prev, gameState (stores w) = Some prev →
       let me := _myPlayerId w in
       let evs := scopa_events prev newState me in
       detect_scopas prev newState w = foldl emit_scopa w evs
       ∧ lastScopaBy (stores w') = last_scopa evs (lastScopaBy (stores w))
       ∧ timers w'
         = timers w ++ replicate (length evs) (clear_lastScopaBy, 2500%Z)
       ∧ (∀ pid old new,
            NoDup (GameState.players newState).*1 →
            lookup_player pid (GameState.players prev) = Some old →
            lookup_player pid (GameState.players newState) = Some new →
            (PlayerInfo.scopas old < PlayerInfo.scopas new)%Z →
            List.filter (owned_by pid) evs
            = [{| player_id := pid;
                  is_mine := bool_decide (Some pid = me) |}])
       ∧ (∀ A B a b,
            GameState.players newState = [(A, a); (B, b)] →
            oldScopas prev A = 0%Z → oldScopas prev B = 1%Z →
            PlayerInfo.scopas a = 1%Z → PlayerInfo.scopas b = 1%Z →
            evs = [{| player_id := A;
                      is_mine := bool_decide (Some A = me) |}])).
Proof.
  intros w'. destruct (dispatch_state_scopa w newState) as [HL HT].
  fold w' in HL, HT. split.
  - intros Hnone. rewrite Hnone in HL, HT. done.
  - intros prev Hprev me evs. rewrite Hprev in HL, HT.
    rewrite detect_scopas_emits, emit_scopas_closed in HL, HT.
    split; [apply detect_scopas_emits|].
    split; [exact HL|]. split; [exact HT|].
    split.
    + intros pid old new Hnd Hold Hnew Hlt.
      apply scopa_events_present with (info := new); try done.
      unfold oldScopas. by rewrite Hold.
    + intros A B a b Hps HA HB Ha Hb. subst evs. unfold scopa_events.
      rewrite Hps. unfold scopa_event. simpl. by rewrite HA, HB, Ha, Hb.
Qed.

(** Previous counts p1: 0, p2: 1, new counts p1: 1, p2: 1, the local
    player being p1: one event, p1's, local. *)
Lemma scopa_detection_witness :
  gameState (stores playing_world) = Some example_state
  ∧ scopa_events example_state swept_state (_myPlayerId playing_world)
    = [{| player_id := "p1"; is_mine := true |}].
Proof.
  assert (gameState (stores playing_world) = Some example_state) as Hprev.
  { vm_compute. reflexivity. }
  split; [exact Hprev|].
  destruct (scopa_detection playing_world swept_state) as [_ Hsome].
  destruct (Hsome example_state Hprev) as (_ & _ & _ & _ & Hex).
  rewrite (Hex "p1" "p2" (PlayerInfo.mk 2 4 1) (PlayerInfo.mk 3 0 1));
    reflexivity.
Defined.

(** ** C4: the second tap on the selected card *)

(** C4.  In a reachable world where a card is selected, a tap on the
    hand card with the same id: if [captureOptions] is empty the handler
    is [executePlay(card.id, [])], that is one call
    [_send({type: 'play', card_id: card.id, capture_ids: []})] (on an open
    socket the frame is appended to it) followed by the clearing of the
    interaction state; if [captureOptions] is not empty the handler is
    [cancelSelection]: nothing is handed to [_send], the sockets and
    the console are untouched, and the interaction state is cleared. *)
Theorem second_tap_discards_or_cancels (w : World) (card sel : Card.t) :
  reachable w →
  selectedCard (stores w) = Some sel → Card.id sel = Card.id card →
  let w' := handleHandCard card w in
  (captureOptions (stores w) = [] →
     w' = executePlay (Card.id card) [] w
     ∧ sockets w' = sockets (_send (play (Card.id card) []) w)
     ∧ console w' = console (_send (play (Card.id card) []) w)
     ∧ (socket_open w = true →
          ∃ k sock, _ws w = Some k ∧ sockets w !! k = Some sock
            ∧ sockets w'
              = <[k := socket_send (play (Card.id card) []) sock]>
                  (sockets w))
     ∧ interaction_cleared w')
  ∧ (captureOptions (stores w) ≠ [] →
     w' = cancelSelection w
     ∧ sockets w' = sockets w ∧ console w' = console w
     ∧ interaction_cleared w').
Proof.
  intros Hw Hsel Hid w'.
  destruct (reachable_board_inv w Hw) as [_ _ _ _ Hturn].
  rewrite Hsel in Hturn. specialize (Hturn ltac:(done)).
  assert (w' = if bool_decide (length (captureOptions (stores w)) = 0)
               then executePlay (Card.id card) [] w else cancelSelection w)
    as Hw'.
  { subst w'. unfold handleHandCard. rewrite Hturn, Hsel. cbn [negb].
    by rewrite (bool_decide_eq_true_2 _ Hid). }
  split.
  - intros Hopts. rewrite Hopts in Hw'. simpl in Hw'. rewrite Hw'.
    split; [done|].
    destruct (executePlay_wire (Card.id card) [] w) as [-> ->].
    split; [done|]. split; [done|]. split; [|apply executePlay_cleared].
    intros Hopen.
    destruct (send_when_open (play (Card.id card) []) w Hopen)
      as (k & sock & Hk & Hsock & Hsend).
    exists k, sock. split; [done|]. split; [done|].
    unfold sendPlay. by rewrite Hsend.
  - intros Hopts. rewrite bool_decide_eq_false_2 in Hw'.
    + rewrite Hw'. split; [done|]. split; [done|]. split; [done|].
      apply cancelSelection_cleared.
    + by destruct (captureOptions (stores w)).
Qed.

(** Card A is selected and no options are known: the second tap on A
    puts the discard of A on the socket. *)
Lemma second_tap_discards_or_cancels_witness :
  reachable selected_world
  ∧ selectedCard (stores selected_world) = Some card_A
  ∧ captureOptions (stores selected_world) = []
  ∧ handleHandCard card_A selected_world = executePlay "A" [] selected_world
  ∧ interaction_cleared (handleHandCard card_A selected_world).
Proof.
  assert (selectedCard (stores selected_world) = Some card_A) as Hsel.
  { vm_compute. reflexivity. }
  assert (captureOptions (stores selected_world) = []) as Hopts.
  { vm_compute. reflexivity. }
  split; [exact reachable_selected|]. split; [exact Hsel|].
  split; [exact Hopts|].
  destruct (second_tap_discards_or_cancels selected_world card_A card_A
              reachable_selected Hsel eq_refl) as [Hdiscard _].
  destruct (Hdiscard Hopts) as (Hw' & _ & _ & _ & Hcl).
  split; [exact Hw'|exact Hcl].
Defined.

(** ** C5: toggling twice *)

(** C5, counterexample.  With c1 pending out of [c1, c2], tapping c2
    completes the option: the play is executed and the pending set
    emptied; the second tap on c2 finds no selected card and does nothing.
    The pending set went from [{c1}] to the empty set. *)
Lemma double_toggle_after_match :
  reachable partial_world
  ∧ pendingTableIds partial_world = {["c1"]}
  ∧ pendingTableIds
      (step (step partial_world (ev_table_card card_c2))
         (ev_table_card card_c2))
    = ∅
  ∧ pendingTableIds
      (step (step partial_world (ev_table_card card_c2))
         (ev_table_card card_c2))
    ≠ pendingTableIds partial_world.
Proof.
  split; [exact reachable_partial|].
  split; [vm_compute; reflexivity|]. split; [vm_compute; reflexivity|].
  intros Heq. apply (f_equal size) in Heq. vm_compute in Heq. discriminate.
Qed.

(** The two other conditions of the amended statement are needed as well.
    With c1 pending and outside the options (the answer for B replaced
    them), the first tap on c1 removes it and the second is refused by the
    guard. *)
Example double_toggle_outside_options :
  reachable stale_world
  ∧ ¬ pending_within_options stale_world
  ∧ pendingTableIds stale_world = {["c1"]}
  ∧ pendingTableIds
      (step (step stale_world (ev_table_card card_c1))
         (ev_table_card card_c1))
    = ∅.
Proof.
  split; [exact reachable_stale|].
  assert (pendingTableIds stale_world = {["c1"]}) as Hp.
  { vm_compute. reflexivity. }
  assert (captureOptions (stores stale_world) = [["c2"; "c3"]]) as Ho.
  { vm_compute. reflexivity. }
  split.
  { unfold pending_within_options. rewrite Hp, Ho. clear Hp Ho.
    intros Hsub. specialize (Hsub "c1"). set_solver. }
  split; [exact Hp|]. vm_compute. reflexivity.
Qed.

(** With c1 pending and [c1] an option (the answer for C arrived after
    the tap), the first tap on c1 removes it and the second completes the
    option: the play is executed. *)
Example double_toggle_second_match :
  reachable overtaken_world
  ∧ pendingTableIds overtaken_world = {["c1"]}
  ∧ captureOptions (stores overtaken_world) = [["c1"]]
  ∧ pendingTableIds
      (step (step overtaken_world (ev_table_card card_c1))
         (ev_table_card card_c1))
    = ∅
  ∧ transmitted
      (step (step overtaken_world (ev_table_card card_c1))
         (ev_table_card card_c1))
    = [[get_captures "A"; get_captures "C"; play "C" ["c1"]]].
Proof.
  split; [exact reachable_overtaken|].
  vm_compute. repeat split.
Qed.

(** C5, amended.  In a reachable world where the pending set lies within
    the flattened capture options, and where neither the pending set nor
    the pending set with the card toggled is exactly a capture option (so
    that neither tap executes a play), two taps in a row on the same table
    card leave the pending set as it was. *)
Theorem double_toggle_identity (w : World) (card : Card.t) :
  reachable w →
  pending_within_options w →
  find (exact_match (elements (toggle (Card.id card) (pendingTableIds w))))
    (captureOptions (stores w)) = None →
  find (exact_match (elements (pendingTableIds w)))
    (captureOptions (stores w)) = None →
  pendingTableIds
    (step (step w (ev_table_card card)) (ev_table_card card))
  = pendingTableIds w.
Proof.
  intros Hw Hsub Hfind1 Hfind0. unfold pending_within_options in Hsub.
  destruct (reachable_board_inv w Hw) as [H1 H2 H3 _ _].
  destruct (tap_table_quiet w card H1 H2 Hfind1) as (Hs & Hc & Hd1 & Hd2 & Hp).
  set (w1 := step w (ev_table_card card)) in *.
  destruct (table_guard card w) eqn:Hg.
  - assert (table_guard card w1 = true) as Hg1.
    { unfold table_guard in *. rewrite Hs, Hc, Hp.
      apply andb_true_iff in Hg as [Hg Hor]. rewrite Hg. cbn [andb].
      apply orb_true_iff. apply orb_true_iff in Hor as [Hor|Hor]; [by left|].
      left. apply bool_decide_eq_true. apply bool_decide_eq_true in Hor.
      rewrite H3. by apply Hsub. }
    assert (find (exact_match
                    (elements (toggle (Card.id card) (pendingTableIds w1))))
              (captureOptions (stores w1)) = None) as Hfind2.
    { by rewrite Hp, Hs, toggle_involutive. }
    destruct (tap_table_quiet w1 card Hd1 Hd2 Hfind2) as (_ & _ & _ & _ & Hp2).
    rewrite Hp2, Hg1, Hp. apply toggle_involutive.
  - assert (table_guard card w1 = false) as Hg1.
    { unfold table_guard in *. by rewrite Hs, Hc, Hp. }
    assert (find (exact_match
                    (elements (toggle (Card.id card) (pendingTableIds w1))))
              (captureOptions (stores w1)) = None) as Hfind2.
    { by rewrite Hp, Hs. }
    destruct (tap_table_quiet w1 card Hd1 Hd2 Hfind2) as (_ & _ & _ & _ & Hp2).
    by rewrite Hp2, Hg1, Hp.
Qed.

(** With c1 pending out of [c1, c2], two taps on c1 (off, then on again)
    give back [{c1}]. *)
Lemma double_toggle_identity_witness :
  reachable partial_world
  ∧ pending_within_options partial_world
  ∧ pendingTableIds
      (step (step partial_world (ev_table_card card_c1))
         (ev_table_card card_c1))
    = pendingTableIds partial_world.
Proof.
  destruct partial_world_fields as (_ & Hopts & Hpend & _ & _ & _).
  assert (pending_within_options partial_world) as Hsub.
  { unfold pending_within_options. rewrite Hopts, Hpend. clear. set_solver. }
  split; [exact reachable_partial|]. split; [exact Hsub|].
  apply (double_toggle_identity partial_world card_c1 reachable_partial Hsub).
  - vm_compute. reflexivity.
  - vm_compute. reflexivity.
Defined.

(** ** C6: the pending set and the capture options *)

(** C6, counterexample.  Card A is selected, then card B before the
    server answered; the answer for A, [c1, c2] or [c3], arrives and c1 is
    tapped; then the answer for B, [c2, c3], replaces the options.  c1 is
    still pending and is in no option. *)
Lemma pending_escapes_options :
  reachable stale_world
  ∧ pendingTableIds stale_world = {["c1"]}
  ∧ captureOptions (stores stale_world) = [["c2"; "c3"]]
  ∧ ¬ pending_within_options stale_world.
Proof.
  split; [exact reachable_stale|].
  assert (pendingTableIds stale_world = {["c1"]}) as Hp.
  { vm_compute. reflexivity. }
  assert (captureOptions (stores stale_world) = [["c2"; "c3"]]) as Ho.
  { vm_compute. reflexivity. }
  split; [exact Hp|]. split; [exact Ho|].
  unfold pending_within_options. rewrite Hp, Ho. clear Hp Ho.
  intros Hsub. specialize (Hsub "c1"). set_solver.
Qed.

(** C6, amended.  From a reachable world in which the pending set lies
    within the flattened capture options, every event leads to a world in
    which it does, provided that a [captures] message carries options that
    cover the current pending set: the board's handlers, the page, the
    timers, the socket events and every other message preserve the
    inclusion; the [captures] handler replaces the options and leaves the
    pending set as it is. *)
Theorem pending_within_options_step (w : World) (e : Event) :
  reachable w → pending_within_options w →
  (∀ k options, e = ev_socket_message k (frame_json (msg_captures options)) →
     pendingTableIds w ⊆ list_to_set (concat options)) →
  pending_within_options (step w e).
Proof.
  intros Hw Hsub Hcap.
  destruct (reachable_board_inv w Hw) as [H1 H2 H3 H4 H5].
  unfold pending_within_options in *.
  destruct (selectedCard (stores w)) as [sel|] eqn:Hsel.
  all: destruct e as [| | | | | | | | | | k [d|[]] | | |].
  all: try specialize (Hcap _ _ eq_refl).
  all: unfold_handlers.
  all: repeat (repeat (progress (wsimpl; rewrite ?H1, ?H2, ?Hsel));
               case_match);
    expose_scopas; repeat (progress (wsimpl; rewrite ?H1, ?H2, ?Hsel));
    simplify_eq; try done; try congruence.
  all: try match goal with
           | H : context [safe_not_equal] |- _ =>
               rewrite ?detect_scopas_emits, ?emit_scopas_closed in H;
               wsimpl; rewrite H1, Hsel in H; discriminate H
           end.
  all: try (rewrite H4 by done; apply empty_subseteq).
  apply toggle_within; [done|]. rewrite <- H3.
  destruct (bool_decide (Card.id card ∈ capturableIds w)) eqn:Hc;
    [left; by apply bool_decide_eq_true_1 in Hc|].
  destruct (bool_decide (Card.id card ∈ pendingTableIds w)) eqn:Hp;
    [right; by apply bool_decide_eq_true_1 in Hp|done].
Qed.

(** With c1 pending, the options [c1, c3] may replace [c1, c2] and
    [c3]. *)
Lemma pending_within_options_step_witness :
  reachable partial_world
  ∧ pending_within_options partial_world
  ∧ pending_within_options
      (step partial_world
         (ev_socket_message 0 (frame_json (msg_captures [["c1"; "c3"]])))).
Proof.
  destruct partial_world_fields as (_ & Hopts & Hpend & _ & _ & _).
  assert (pending_within_options partial_world) as Hsub.
  { unfold pending_within_options. rewrite Hopts, Hpend. clear. set_solver. }
  split; [exact reachable_partial|]. split; [exact Hsub|].
  apply (pending_within_options_step partial_world _ reachable_partial Hsub).
  intros k options Heq. injection Heq as _ <-.
  rewrite Hpend. clear. set_solver.
Defined.

(** ** C7: one live connection *)

(** C7.  In every reachable world at most one socket is connecting or
    open.  A call of [connect] there sets the status to [connecting],
    leaves every socket that existed before the call neither connecting
    nor open ([close] was called on the one [_ws] referred to, the others
    were closed already), and makes [_ws] refer to a new socket, which is
    connecting. *)
Theorem connect_closes_prior_connection (w : World) :
  reachable w →
  (∀ k1 k2 s1 s2,
     sockets w !! k1 = Some s1 → live s1 = true →
     sockets w !! k2 = Some s2 → live s2 = true → k1 = k2)
  ∧ (∀ sid pid,
       let w' := connect sid pid w in
       wsStatus (stores w') = connecting
       ∧ _ws w' = Some (length (sockets w))
       ∧ (∃ u, sockets w' !! length (sockets w) = Some (new_WebSocket u))
       ∧ (∀ k sock, (k < length (sockets w))%nat →
            sockets w' !! k = Some sock → live sock = false)).
Proof.
  intros Hw. pose proof (reachable_socket_inv w Hw) as Hinv.
  split.
  - intros k1 k2 s1 s2 H1 L1 H2 L2.
    pose proof (Hinv _ _ H1 L1). pose proof (Hinv _ _ H2 L2). congruence.
  - intros sid pid w'.
    assert (socket_inv w') as Hinv'.
    { subst w'. clear Hw. socket_crush. }
    assert (_ws w' = Some (length (sockets w))
            ∧ wsStatus (stores w') = connecting
            ∧ ∃ u, sockets w' !! length (sockets w) = Some (new_WebSocket u))
      as (Hws & Hst & Hnew).
    { subst w'. unfold connect. repeat (wsimpl; case_match); wsimpl;
        rewrite ?length_alter; (split; [done|]); (split; [done|]).
      all: eexists; rewrite lookup_app_r, ?length_alter, ?Nat.sub_diag;
        try done; rewrite ?length_alter; lia. }
    repeat split; try done.
    intros k sock Hk Hsock. destruct (live sock) eqn:Hl; [|done].
    specialize (Hinv' _ _ Hsock Hl). rewrite Hws in Hinv'. simplify_eq. lia.
Qed.

(** With a connection open, a second [connect] leaves the first socket
    closing. *)
Lemma connect_closes_prior_connection_witness :
  reachable connected_world
  ∧ sockets connected_world = [connected_socket]
  ∧ wsStatus (stores (connect "s1" "p1" connected_world)) = connecting
  ∧ ∀ sock, sockets (connect "s1" "p1" connected_world) !! 0 = Some sock →
      live sock = false.
Proof.
  assert (sockets connected_world = [connected_socket]) as Hsock.
  { vm_compute. reflexivity. }
  split; [exact reachable_connected|]. split; [exact Hsock|].
  destruct (connect_closes_prior_connection connected_world
              reachable_connected) as [_ Hconnect].
  destruct (Hconnect "s1" "p1") as (Hst & _ & _ & Hdead).
  split; [exact Hst|].
  intros sock. apply Hdead. rewrite Hsock. simpl. lia.
Defined.

(** ** C8: [_send] *)

(** C8, counterexample.  The opponent left: the status is
    [disconnected], the socket is open and the board is shown; a tap on
    card A sends [get_captures] for it.  In the lobby the status is
    [waiting] and [_send] hands a frame to the open socket as well,
    without logging. *)
Lemma send_transmits_while_not_connected :
  reachable abandoned_world
  ∧ wsStatus (stores abandoned_world) = disconnected
  ∧ transmitted abandoned_world = [[]]
  ∧ transmitted (step abandoned_world (ev_hand_card card_A))
    = [[get_captures "A"]]
  ∧ console (step abandoned_world (ev_hand_card card_A))
    = console abandoned_world
  ∧ reachable lobby_world
  ∧ wsStatus (stores lobby_world) = waiting
  ∧ transmitted lobby_world = [[]]
  ∧ transmitted waiting_send = [[get_captures "c7"]]
  ∧ console waiting_send = console lobby_world.
Proof.
  split; [exact reachable_abandoned|].
  do 4 (split; [vm_compute; reflexivity|]).
  split; [exact reachable_lobby|].
  vm_compute. repeat split.
Qed.

(** C8, amended.  [_send(m)] hands [m] to the socket exactly when [_ws]
    refers to a socket whose [readyState] is [OPEN]: then the frame is
    appended to that socket's frames and nothing else changes.  Otherwise
    no socket changes and the only effect is the warning
    [log_cannot_send m] on the console.  The [wsStatus] store is not
    consulted: writing any status before the call or after it gives the
    same world. *)
Theorem send_gated_by_readyState (m : OutMsg) (w : World) :
  (socket_open w = true →
     ∃ k sock, _ws w = Some k ∧ sockets w !! k = Some sock
       ∧ _send m w = set_sockets (<[k := socket_send m sock]> (sockets w)) w)
  ∧ (socket_open w = false →
       _send m w = console_write (log_cannot_send m) w)
  ∧ (∀ status,
       _send m (wsStatus_set status w) = wsStatus_set status (_send m w)).
Proof.
  split; [apply send_when_open|]. split; [apply send_when_closed|].
  intros status. unfold _send. wsimpl. by repeat case_match.
Qed.

(** In the lobby the socket is open and the frame is appended to it. *)
Lemma send_gated_by_readyState_witness :
  socket_open lobby_world = true
  ∧ ∃ k sock, _ws lobby_world = Some k ∧ sockets lobby_world !! k = Some sock
      ∧ _send (get_captures "c7") lobby_world
        = set_sockets
            (<[k := socket_send (get_captures "c7") sock]>
               (sockets lobby_world))
            lobby_world.
Proof.
  assert (socket_open lobby_world = true) as Hopen.
  { vm_compute. reflexivity. }
  split; [exact Hopen|].
  destruct (send_gated_by_readyState (get_captures "c7") lobby_world)
    as [Hsend _].
  exact (Hsend Hopen).
Defined.

(** ** C9: [joinCode] *)



(** ** C10: the [captures] message *)

(** C10.  In any world, whatever card is selected or none, whoever is to
    move, whatever was requested: the dispatch of a [captures] message
    makes [captureOptions] the payload and [capturesLoaded] true, leaves
    the selected card, the game state, the pending set, the sockets and
    the console as they are, and at the component's update
    [capturableIds] is the flattened payload. *)
Theorem captures_unconditional (w : World) (options : list (list string)) :
  let w' := _dispatch (msg_captures options) w in
  captureOptions (stores w') = options
  ∧ capturesLoaded (stores w') = true
  ∧ selectedCard (stores w') = selectedCard (stores w)
  ∧ gameState (stores w') = gameState (stores w)
  ∧ pendingTableIds w' = pendingTableIds w
  ∧ sockets w' = sockets w
  ∧ console w' = console w
  ∧ capturableIds (flush w') = list_to_set (concat options).
Proof.
  intros w'. subst w'. repeat split.
  unfold flush, _dispatch. wsimpl. by repeat case_match.
Qed.

(** The answer to the request for A arrives after B was selected: it
    becomes the options of B. *)
Example stale_captures_applied :
  selectedCard (stores stale_world) = Some card_B
  ∧ sockets stale_world
    = [{| url := "wss://scopa.example/ws/s1/p1"; readyState := OPEN;
          sentFrames := [get_captures "A"; get_captures "B"] |}]
  ∧ captureOptions
      (stores (run selected_world
                 [ev_hand_card card_B;
                  ev_socket_message 0
                    (frame_json (msg_captures [["c1"; "c2"]; ["c3"]]))]))
    = [["c1"; "c2"]; ["c3"]].
Proof. vm_compute. repeat split. Qed.
(** * Further properties *)

Lemma reachable_reconnected : reachable reconnected_world.
Proof. apply run_reachable_from, reachable_connected. Qed.

Lemma playing_world_fields :
  selectedCard (stores playing_world) = None
  ∧ capturesLoaded (stores playing_world) = false
  ∧ isMyTurn (stores playing_world) = true
  ∧ isWaiting (stores playing_world) = false
  ∧ has_gameState (stores playing_world) = true.
Proof. vm_compute. repeat split; reflexivity. Qed.

(** X1.  Card.svelte passes a click on only for a card that is
    selectable, capturable or pending.  For a table card this filter is
    the two guards of [handleTableCard]; a table card is never shown both
    capturable and pending; so a click that goes through the component
    does what the handler does on its own, for a table card and for a
    hand card alike.  The button is disabled exactly when the click would
    not be passed on. *)
Theorem click_filter_matches_guards (w : World) (card : Card.t) :
  Card_handleClick false (table_capturable card w) (table_pending card w)
  = table_guard card w
  ∧ table_capturable card w && table_pending card w = false
  ∧ click_table_card card w = handleTableCard card w
  ∧ click_hand_card card w = handleHandCard card w
  ∧ (∀ s c p, Card_disabled s c p = negb (Card_handleClick s c p)).
Proof.
  unfold click_table_card, click_hand_card, Card_handleClick, table_capturable,
    table_pending, table_guard, hand_selectable, has_selection,
    handleTableCard, handleHandCard, Card_disabled.
  destruct (selectedCard (stores w)) as [sel|] eqn:Hsel;
    destruct (isMyTurn (stores w)) eqn:Hturn;
    destruct (bool_decide (Card.id card ∈ capturableIds w)) eqn:Hc;
    destruct (bool_decide (Card.id card ∈ pendingTableIds w)) eqn:Hp;
    cbn [negb andb orb];
    try (rewrite bool_decide_eq_true_2 by eauto);
    try (rewrite bool_decide_eq_false_2 by (intros [? ?]; done));
    cbn [negb andb orb];
    repeat split; try done; by intros [] [] [].
Qed.

Lemma handleHandCard_selects (w : World) (card : Card.t) :
  isMyTurn (stores w) = true → hand_selected card w = false →
  handleHandCard card w
  = sendGetCaptures (Card.id card)
      (set_pendingTableIds ∅
         (capturesLoaded_set false
            (captureOptions_set [] (selectedCard_set (Some card) w)))).
Proof.
  intros Hturn Hsel. unfold handleHandCard, hand_selected in *.
  rewrite Hturn. cbn [negb]. by rewrite Hsel.
Qed.

(** X2.  On the local player's turn, a tap on a hand card that is not
    the selected one selects it, empties the capture options and the
    pending set (so no table card glows), leaves the game state alone,
    asks the server for the captures of that card through [_send], and
    the hint strip shows the card's suit and value. *)
Theorem selecting_a_card_requests_captures (w : World) (card : Card.t) :
  isMyTurn (stores w) = true → hand_selected card w = false →
  let w' := step w (ev_hand_card card) in
  selectedCard (stores w') = Some card
  ∧ captureOptions (stores w') = []
  ∧ capturesLoaded (stores w') = false
  ∧ pendingTableIds w' = ∅
  ∧ capturableIds w' = ∅
  ∧ gameState (stores w') = gameState (stores w)
  ∧ sockets w' = sockets (_send (get_captures (Card.id card)) w)
  ∧ console w' = console (_send (get_captures (Card.id card)) w)
  ∧ capture_hint w' = Some (hint_selected (Card.suit card) (Card.value card)).
Proof.
  intros Hturn Hsel w'. subst w'. unfold step, handle.
  rewrite (handleHandCard_selects w card Hturn Hsel).
  unfold capture_hint, isMyTurn in *.
  unfold sendGetCaptures, _send, flush. wsimpl.
  repeat (wsimpl; case_match); wsimpl; simplify_eq;
    repeat split; try done; congruence.
Qed.

Lemma selecting_a_card_requests_captures_witness :
  isMyTurn (stores playing_world) = true
  ∧ hand_selected card_A playing_world = false
  ∧ selectedCard (stores (step playing_world (ev_hand_card card_A)))
    = Some card_A
  ∧ capture_hint (step playing_world (ev_hand_card card_A))
    = Some (hint_selected "oro" 5).
Proof.
  assert (isMyTurn (stores playing_world) = true) as Hturn.
  { vm_compute. reflexivity. }
  assert (hand_selected card_A playing_world = false) as Hsel.
  { vm_compute. reflexivity. }
  split; [exact Hturn|]. split; [exact Hsel|].
  destruct (selecting_a_card_requests_captures playing_world card_A
              Hturn Hsel) as (H1 & _ & _ & _ & _ & _ & _ & _ & H2).
  split; [exact H1|exact H2].
Defined.

(** X3.  In a reachable world with a card selected the hint strip is
    shown, and its text agrees with what a second tap on the selected
    card does: with the two texts that speak of discarding there are no
    capture options and the tap plays the card with no captures; with the
    two texts that speak of capturing there are options and the tap only
    cancels the selection. *)
Theorem hint_tells_what_second_tap_does (w : World) (sel : Card.t) :
  reachable w → selectedCard (stores w) = Some sel →
  match capture_hint w with
  | Some hint_no_captures | Some (hint_selected _ _) =>
      captureOptions (stores w) = []
      ∧ handleHandCard sel w = executePlay (Card.id sel) [] w
  | Some hint_tap_glowing =>
      captureOptions (stores w) ≠ [] ∧ pendingTableIds w = ∅
      ∧ handleHandCard sel w = cancelSelection w
  | Some hint_complete_or_undo =>
      captureOptions (stores w) ≠ [] ∧ pendingTableIds w ≠ ∅
      ∧ handleHandCard sel w = cancelSelection w
  | None => False
  end.
Proof.
  intros Hw Hsel.
  destruct (reachable_board_inv w Hw) as [_ _ _ _ Hturn].
  rewrite Hsel in Hturn. specialize (Hturn ltac:(done)).
  unfold capture_hint, handleHandCard. rewrite Hsel, Hturn. cbn [negb].
  rewrite (bool_decide_eq_true_2 (Card.id sel = Card.id sel)) by done.
  destruct (captureOptions (stores w)) as [|o os] eqn:Hopts.
  - cbn [length]. rewrite (bool_decide_eq_false_2 (0 < 0)) by lia.
    cbn [andb]. rewrite (bool_decide_eq_true_2 (0%nat = 0%nat)) by done.
    by destruct (capturesLoaded (stores w)).
  - cbn [length]. rewrite (bool_decide_eq_true_2 (0 < S (length os))) by lia.
    rewrite (bool_decide_eq_false_2 (S (length os) = 0)) by lia.
    cbn [andb]. case_bool_decide as Hsize.
    + split; [done|]. split; [|done].
      intros Hempty. rewrite Hempty, size_empty in Hsize. lia.
    + split; [done|]. split; [|done].
      apply leibniz_equiv, size_empty_iff. lia.
Qed.

Lemma hint_tells_what_second_tap_does_witness :
  reachable partial_world
  ∧ selectedCard (stores partial_world) = Some card_A
  ∧ capture_hint partial_world = Some hint_complete_or_undo
  ∧ handleHandCard card_A partial_world = cancelSelection partial_world.
Proof.
  assert (selectedCard (stores partial_world) = Some card_A) as Hsel.
  { vm_compute. reflexivity. }
  assert (capture_hint partial_world = Some hint_complete_or_undo) as Hhint.
  { vm_compute. reflexivity. }
  split; [exact reachable_partial|]. split; [exact Hsel|].
  split; [exact Hhint|].
  pose proof (hint_tells_what_second_tap_does partial_world card_A
                reachable_partial Hsel) as H.
  rewrite Hhint in H. destruct H as (_ & _ & H). exact H.
Defined.

Lemma dispatch_board_pre msg w : board_inv w → board_pre (_dispatch msg w).
Proof.
  intros [H1 H2 H3 H4 H5].
  destruct (selectedCard (stores w)) as [sel|] eqn:Hsel.
  all: destruct msg; unfold _dispatch; board_crush H1 H2 Hsel.
Qed.

Lemma flush_sockets w : sockets (flush w) = sockets w.
Proof. unfold flush. by repeat case_match. Qed.

Lemma flush_timers w : timers (flush w) = timers w.
Proof. unfold flush. by repeat case_match. Qed.

Lemma flush_console w : console (flush w) = console w.
Proof. unfold flush. by repeat case_match. Qed.

Lemma flush_ws w : _ws (flush w) = _ws w.
Proof. unfold flush. by repeat case_match. Qed.

(** After a message that leaves no card selected, nothing is pending once
    the component has updated. *)
Lemma dispatch_clears_pending msg w :
  reachable w → selectedCard (stores (_dispatch msg w)) = None →
  pendingTableIds (flush (_dispatch msg w)) = ∅.
Proof.
  intros Hw Hnone.
  pose proof (flush_board_inv _ (dispatch_board_pre msg w
                                   (reachable_board_inv w Hw))) as Hinv.
  apply (inv_pending _ Hinv). by rewrite flush_stores.
Qed.

(** X4.  [game_started], once the component has updated: the game
    state, the round result and the interaction state are cleared, the
    status is [connected], the lobby is left, the full deal animation is
    started; the opponent and the round are replaced only by a non-empty
    id and a non-zero number; the error banner, the timers and the
    sockets are untouched; the page shows the animation without the
    board; and in a reachable world nothing is left pending. *)
Theorem game_started_resets_round (w : World) (opp : option string)
    (round : option Z) :
  let w' := flush (_dispatch (msg_game_started opp round) w) in
  gameState (stores w') = None
  ∧ roundResult (stores w') = None
  ∧ selectedCard (stores w') = None
  ∧ captureOptions (stores w') = []
  ∧ capturesLoaded (stores w') = false
  ∧ wsStatus (stores w') = connected
  ∧ isWaiting (stores w') = false
  ∧ dealType (stores w') = full
  ∧ isDealing (stores w') = true
  ∧ opponentId (stores w')
    = (if truthy_string opp then opp else opponentId (stores w))
  ∧ roundNumber (stores w')
    = match round with
      | Some r => if (r =? 0)%Z then roundNumber (stores w) else r
      | None => roundNumber (stores w)
      end
  ∧ errorMessage (stores w') = errorMessage (stores w)
  ∧ timers w' = timers w
  ∧ sockets w' = sockets w
  ∧ isMyTurn (stores w') = false
  ∧ myHand (stores w') = [] ∧ tableCards (stores w') = []
  ∧ page_view (stores w')
    = page_game (Some (roundNumber (stores w'), full)) false
  ∧ (reachable w → pendingTableIds w' = ∅).
Proof.
  intros w'. subst w'.
  assert (reachable w → pendingTableIds
            (flush (_dispatch (msg_game_started opp round) w)) = ∅) as Hp.
  { intros Hw. apply dispatch_clears_pending; [done|].
    unfold _dispatch. by repeat (wsimpl; case_match). }
  remember (pendingTableIds
              (flush (_dispatch (msg_game_started opp round) w))) as pw eqn:E.
  clear E. rewrite flush_stores, flush_sockets, flush_timers.
  unfold page_view, isConnecting, isWaitingForOpponent, isDisconnected,
    has_gameState, isMyTurn, myHand, tableCards.
  unfold _dispatch, truthy_number.
  destruct (truthy_string opp); destruct round as [r|];
    try destruct (r =? 0)%Z; wsimpl; repeat split; done.
Qed.

Lemma game_started_resets_round_witness :
  reachable partial_world
  ∧ pendingTableIds partial_world = {["c1"]}
  ∧ pendingTableIds
      (flush (_dispatch (msg_game_started (Some "p2") (Some 2%Z))
                partial_world)) = ∅.
Proof.
  split; [exact reachable_partial|].
  split; [vm_compute; reflexivity|].
  destruct (game_started_resets_round partial_world (Some "p2") (Some 2%Z))
    as (_ & _ & _ & _ & _ & _ & _ & _ & _ & _ & _ & _ & _ & _ & _ & _ & _ & _
        & H).
  exact (H reachable_partial).
Defined.



(** X6.  [round_over] stores its payload as the round result and clears
    the interaction state, without touching the game state, the status,
    the error banner, the timers, the sockets or the screen shown; in a
    reachable world nothing is left pending; and the result is dropped by
    the next [state] message, whatever it holds. *)
Theorem round_over_shows_result (w : World) (result : RoundOver) :
  let w' := flush (_dispatch (msg_round_over result) w) in
  roundResult (stores w') = Some result
  ∧ selectedCard (stores w') = None
  ∧ captureOptions (stores w') = []
  ∧ capturesLoaded (stores w') = false
  ∧ gameState (stores w') = gameState (stores w)
  ∧ isMyTurn (stores w') = isMyTurn (stores w)
  ∧ wsStatus (stores w') = wsStatus (stores w)
  ∧ errorMessage (stores w') = errorMessage (stores w)
  ∧ timers w' = timers w ∧ sockets w' = sockets w
  ∧ page_view (stores w') = page_view (stores w)
  ∧ (reachable w → pendingTableIds w' = ∅)
  ∧ (∀ newState,
       roundResult
         (stores (flush (_dispatch (msg_state newState) w'))) = None).
Proof.
  intros w'. subst w'.
  assert (reachable w → pendingTableIds
            (flush (_dispatch (msg_round_over result) w)) = ∅) as Hp.
  { intros Hw. apply dispatch_clears_pending; [done|].
    unfold _dispatch. by repeat (wsimpl; case_match). }
  remember (pendingTableIds (flush (_dispatch (msg_round_over result) w)))
    as pw eqn:E.
  clear E.
  assert (∀ newState v,
            roundResult (stores (flush (_dispatch (msg_state newState) v)))
            = None) as Hs.
  { intros newState v. rewrite flush_stores. unfold _dispatch.
    by repeat (wsimpl; case_match). }
  rewrite flush_stores, flush_sockets, flush_timers.
  repeat split; done.
Qed.

Lemma round_over_shows_result_witness :
  reachable partial_world
  ∧ pendingTableIds
      (flush (_dispatch (msg_round_over example_result) partial_world))
    = ∅.
Proof.
  split; [exact reachable_partial|].
  destruct (round_over_shows_result partial_world example_result)
    as (_ & _ & _ & _ & _ & _ & _ & _ & _ & _ & _ & H & _).
  exact (H reachable_partial).
Defined.

(** X7.  An [error] message shows its text and queues a 4000 ms timer
    that clears it, leaving the game and the interaction state alone.
    The timer of an earlier error is not cancelled by a later one: after
    two errors both timers are queued, and when the first fires it clears
    the second message, whose own timer is still to come. *)
Theorem error_timers_are_not_cancelled (w : World) (m1 m2 : string) :
  let w1 := _dispatch (msg_error m1) w in
  let w2 := _dispatch (msg_error m2) w1 in
  let first := length (timers w) in
  let w3 := timer_fires first w2 in
  errorMessage (stores w1) = Some m1
  ∧ timers w1 = timers w ++ [(clear_errorMessage, 4000%Z)]
  ∧ gameState (stores w1) = gameState (stores w)
  ∧ selectedCard (stores w1) = selectedCard (stores w)
  ∧ captureOptions (stores w1) = captureOptions (stores w)
  ∧ pendingTableIds w1 = pendingTableIds w
  ∧ errorMessage (stores w2) = Some m2
  ∧ timers w2
    = timers w ++ [(clear_errorMessage, 4000%Z); (clear_errorMessage, 4000%Z)]
  ∧ errorMessage (stores w3) = None
  ∧ timers w3 = timers w ++ [(clear_errorMessage, 4000%Z)].
Proof.
  intros w1 w2 first w3. subst w1 w2 first w3.
  unfold timer_fires, _dispatch. wsimpl.
  rewrite <- app_assoc. cbn [app].
  rewrite lookup_app_r, Nat.sub_diag by lia. cbn [lookup list_lookup].
  unfold run_timer. wsimpl.
  repeat split. apply delete_middle.
Qed.

Lemma flush_clean w :
  dirty_selectedCard w = false → dirty_captureOptions w = false →
  flush w = w.
Proof.
  intros H1 H2. destruct_world w. cbn in H1, H2. subst.
  reflexivity.
Qed.

Lemma step_ignored w e :
  reachable w → handle e w = w → step w e = w.
Proof.
  intros Hw He. unfold step. rewrite He.
  destruct (reachable_board_inv w Hw) as [H1 H2 _ _ _].
  by apply flush_clean.
Qed.

Lemma step_logged w e entry :
  reachable w → handle e w = console_write entry w →
  step w e = console_write entry w.
Proof.
  intros Hw He. unfold step. rewrite He.
  destruct (reachable_board_inv w Hw) as [H1 H2 _ _ _].
  by apply flush_clean.
Qed.

(** X8.  In a reachable world a [pong] changes nothing at all; a frame
    of an unknown type, or one that is not JSON, only adds a line to the
    console; and a frame on a socket that does not exist or is not open
    is not seen by the client. *)
Theorem ignored_frames_change_nothing (w : World) (k : nat) :
  reachable w →
  step w (ev_socket_message k (frame_json msg_pong)) = w
  ∧ (∀ type,
       step w (ev_socket_message k (frame_json (msg_unknown type)))
       = if delivers k w then console_write (log_unknown_type type) w else w)
  ∧ (∀ data,
       step w (ev_socket_message k (frame_garbage data))
       = if delivers k w then console_write (log_parse_failed data) w else w)
  ∧ (∀ f, delivers k w = false → step w (ev_socket_message k f) = w).
Proof.
  intros Hw. unfold delivers.
  split; [|split; [|split]].
  - apply step_ignored; [done|]. unfold handle, socket_delivers.
    by repeat case_match.
  - intros type. destruct (sockets w !! k) as [sock|] eqn:Hk.
    + destruct (bool_decide (readyState sock = OPEN)) eqn:Ho.
      * apply step_logged; [done|]. unfold handle, socket_delivers.
        by rewrite Hk, Ho.
      * apply step_ignored; [done|]. unfold handle, socket_delivers.
        by rewrite Hk, Ho.
    + apply step_ignored; [done|]. unfold handle, socket_delivers.
      by rewrite Hk.
  - intros data. destruct (sockets w !! k) as [sock|] eqn:Hk.
    + destruct (bool_decide (readyState sock = OPEN)) eqn:Ho.
      * apply step_logged; [done|]. unfold handle, socket_delivers.
        by rewrite Hk, Ho.
      * apply step_ignored; [done|]. unfold handle, socket_delivers.
        by rewrite Hk, Ho.
    + apply step_ignored; [done|]. unfold handle, socket_delivers.
      by rewrite Hk.
  - intros f Hd. apply step_ignored; [done|]. unfold handle, socket_delivers.
    destruct (sockets w !! k) as [sock|]; [|done]. by rewrite Hd.
Qed.

Lemma ignored_frames_change_nothing_witness :
  reachable playing_world
  ∧ step playing_world (ev_socket_message 0 (frame_json msg_pong))
    = playing_world
  ∧ delivers 1 playing_world = false
  ∧ step playing_world (ev_socket_message 1 (frame_json msg_waiting))
    = playing_world.
Proof.
  assert (delivers 1 playing_world = false) as Hd.
  { vm_compute. reflexivity. }
  split; [exact reachable_playing|].
  destruct (ignored_frames_change_nothing playing_world 0 reachable_playing)
    as (Hpong & _).
  destruct (ignored_frames_change_nothing playing_world 1 reachable_playing)
    as (_ & _ & _ & Hclosed).
  split; [exact Hpong|]. split; [exact Hd|].
  exact (Hclosed (frame_json msg_waiting) Hd).
Defined.

(** X9.  [opponent_disconnected] sets the status to [disconnected] and
    shows a fixed message that no timer clears; the sockets, the current
    connection, the game state, the selection and the round result are as
    before.  Outside the lobby the page keeps showing the board when
    there is a game state, and the disconnected screen when there is
    none. *)
Theorem opponent_disconnected_keeps_game (w : World) :
  let w' := flush (_dispatch msg_opponent_disconnected w) in
  wsStatus (stores w') = disconnected
  ∧ errorMessage (stores w') = Some "Opponent disconnected."
  ∧ timers w' = timers w
  ∧ sockets w' = sockets w ∧ _ws w' = _ws w
  ∧ socket_open w' = socket_open w
  ∧ gameState (stores w') = gameState (stores w)
  ∧ selectedCard (stores w') = selectedCard (stores w)
  ∧ captureOptions (stores w') = captureOptions (stores w)
  ∧ roundResult (stores w') = roundResult (stores w)
  ∧ (isWaiting (stores w) = false → has_gameState (stores w) = true →
       page_view (stores w')
       = page_game
           (if isDealing (stores w)
            then Some (roundNumber (stores w), dealType (stores w)) else None)
           true)
  ∧ (isWaiting (stores w) = false → has_gameState (stores w) = false →
       page_view (stores w') = page_disconnected).
Proof.
  intros w'. subst w'.
  unfold socket_open.
  rewrite flush_stores, flush_sockets, flush_timers, flush_ws.
  unfold page_view, isConnecting, isWaitingForOpponent, isDisconnected.
  unfold _dispatch. wsimpl. repeat split; try done.
  - intros Hw Hg. unfold has_gameState in *. wsimpl. rewrite Hw.
    cbn. destruct (gameState (stores w)); [|done].
    by destruct (isDealing (stores w)).
  - intros Hw Hg. unfold has_gameState in *. wsimpl. rewrite Hw.
    cbn. by destruct (gameState (stores w)).
Qed.

Lemma opponent_disconnected_keeps_game_witness :
  isWaiting (stores playing_world) = false
  ∧ has_gameState (stores playing_world) = true
  ∧ page_view
      (stores (flush (_dispatch msg_opponent_disconnected playing_world)))
    = page_game None true
  ∧ isWaiting (stores connected_world) = false
  ∧ has_gameState (stores connected_world) = false
  ∧ page_view
      (stores (flush (_dispatch msg_opponent_disconnected connected_world)))
    = page_disconnected.
Proof.
  assert (isWaiting (stores playing_world) = false) as Hw1.
  { vm_compute. reflexivity. }
  assert (has_gameState (stores playing_world) = true) as Hg1.
  { vm_compute. reflexivity. }
  assert (isWaiting (stores connected_world) = false) as Hw2.
  { vm_compute. reflexivity. }
  assert (has_gameState (stores connected_world) = false) as Hg2.
  { vm_compute. reflexivity. }
  assert (isDealing (stores playing_world) = false) as Hd.
  { vm_compute. reflexivity. }
  destruct (opponent_disconnected_keeps_game playing_world)
    as (_ & _ & _ & _ & _ & _ & _ & _ & _ & _ & Hboard & _).
  destruct (opponent_disconnected_keeps_game connected_world)
    as (_ & _ & _ & _ & _ & _ & _ & _ & _ & _ & _ & Hover).
  split; [exact Hw1|]. split; [exact Hg1|].
  split; [rewrite (Hboard Hw1 Hg1), Hd; reflexivity|].
  split; [exact Hw2|]. split; [exact Hg2|].
  exact (Hover Hw2 Hg2).
Defined.

(** ** [_ws] is the socket created last *)

Lemma handle_ws_is_last e w :
  ws_is_last (_ws w) (sockets w) →
  ws_is_last (_ws (handle e w)) (sockets (handle e w)).
Proof.
  intros H. destruct e as [| | | | | | | | | | k [d|[]] | | |].
  all: unfold ws_is_last in *; unfold_handlers;
    repeat (wsimpl; case_match); expose_scopas; wsimpl;
    rewrite ?length_alter, ?length_app; cbn [length];
    try done; intros; simplify_eq; rewrite ?length_alter; try lia; eauto.
Qed.

Lemma reachable_ws_is_last w : reachable w → ws_is_last (_ws w) (sockets w).
Proof.
  induction 1 as [loc|w e _ IH]; [done|].
  unfold step. rewrite flush_ws, flush_sockets. by apply handle_ws_is_last.
Qed.

(** ** The frames sent *)

Lemma frames_alter (f : WebSocket → WebSocket) k (l : list WebSocket) :
  (∀ s, sentFrames (f s) = sentFrames s) →
  sentFrames <$> alter f k l = sentFrames <$> l.
Proof.
  intros Hf. revert k. induction l as [|s l IH]; intros [|k]; cbn; [done..| |].
  - by rewrite Hf.
  - f_equal. apply IH.
Qed.

Lemma frames_alter_last m k sock (l : list WebSocket) :
  l !! k = Some sock → S k = length l →
  concat (sentFrames <$> alter (socket_send m) k l)
  = concat (sentFrames <$> l) ++ [m].
Proof.
  revert k. induction l as [|s l IH]; intros k Hk Hlen; [done|].
  destruct k as [|k]; cbn in *.
  - destruct l; [|done]. cbn. by rewrite !app_nil_r.
  - rewrite <- app_assoc. f_equal. apply IH; [done|lia].
Qed.

Lemma frames_send m w :
  ws_is_last (_ws w) (sockets w) →
  frames (_send m w) = if socket_open w then frames w ++ [m] else frames w.
Proof.
  intros Hlast. unfold frames, transmitted, _send, socket_open.
  destruct (_ws w) as [k|] eqn:Hws; [|done].
  destruct (sockets w !! k) as [sock|] eqn:Hk; [|done].
  destruct (bool_decide (readyState sock = OPEN)); [|done].
  wsimpl. eapply frames_alter_last; [done|]. by apply Hlast.
Qed.

Lemma dispatch_sockets msg w : sockets (_dispatch msg w) = sockets w.
Proof.
  destruct msg; unfold _dispatch; repeat (wsimpl; case_match);
    expose_scopas; wsimpl; done.
Qed.

Lemma frames_sockets w v : sockets w = sockets v → frames w = frames v.
Proof. unfold frames, transmitted. by intros ->. Qed.

Lemma frames_close k (l : list WebSocket) :
  sentFrames <$> alter socket_close k l = sentFrames <$> l.
Proof.
  apply frames_alter. intros s. unfold socket_close.
  by destruct (readyState s).
Qed.

Lemma frames_state r k (l : list WebSocket) :
  sentFrames <$> alter (with_readyState r) k l = sentFrames <$> l.
Proof. by apply frames_alter. Qed.

Lemma frames_flush w : frames (flush w) = frames w.
Proof. apply frames_sockets, flush_sockets. Qed.

Lemma sockets_send m w v :
  _ws w = _ws v → sockets w = sockets v →
  sockets (_send m w) = sockets (_send m v).
Proof.
  intros Hws Hs. unfold _send. rewrite Hws, Hs.
  by repeat (wsimpl; case_match).
Qed.

Lemma flush_cleared w : interaction_cleared w → interaction_cleared (flush w).
Proof.
  unfold interaction_cleared. rewrite flush_stores.
  intros (H1 & H2 & H3 & H4). repeat split; try done.
  unfold flush. rewrite ?H1. by repeat (wsimpl; case_match).
Qed.

(** X10.  What the client ever sends.  One event of a reachable world
    adds at most one frame, at the end of all the frames sent so far, and
    only a tap on a card does so, on the local player's turn with the
    connection open: either [get_captures] for a hand card that was not
    the selected one, or [play] for the selected card, with no captures
    or with one of the capture options as the server sent it, after
    which the interaction state is cleared. *)
Theorem frames_grow_only_by_taps (w : World) (e : Event) :
  reachable w →
  frames (step w e) = frames w
  ∨ (socket_open w = true ∧ isMyTurn (stores w) = true
     ∧ ((∃ card, e = ev_hand_card card ∧ hand_selected card w = false
           ∧ frames (step w e) = frames w ++ [get_captures (Card.id card)])
        ∨ (∃ sel ids, selectedCard (stores w) = Some sel ∧ is_tap e
             ∧ (ids = [] ∨ ids ∈ captureOptions (stores w))
             ∧ frames (step w e) = frames w ++ [play (Card.id sel) ids]
             ∧ interaction_cleared (step w e)))).
Proof.
  intros Hw. pose proof (reachable_ws_is_last w Hw) as Hlast.
  unfold step. rewrite frames_flush.
  destruct e as [| | | | | |card|card| | | k [d|msg] | | |];
    cbn [handle].
  7: { (* hand card *)
    unfold handleHandCard, hand_selected.
    destruct (isMyTurn (stores w)) eqn:Hturn; cbn [negb]; [|by left].
    destruct (selectedCard (stores w)) as [sel|] eqn:Hsel.
    - case_bool_decide as Hid.
      + case_bool_decide as Hlen; [|by left].
        rewrite (frames_sockets _ (_send (play (Card.id card) []) w))
          by done.
        rewrite frames_send by done.
        destruct (socket_open w) eqn:Ho; [|by left].
        right. split; [done|]. split; [done|]. right.
        exists sel, []. rewrite Hid.
        split; [done|]. split; [done|]. split; [by left|]. split; [done|].
        apply flush_cleared, executePlay_cleared.
      + rewrite (frames_sockets _ (_send (get_captures (Card.id card)) w)).
        2: { unfold sendGetCaptures. cbv zeta.
             apply sockets_send; reflexivity. }
        rewrite frames_send by done.
        destruct (socket_open w) eqn:Ho; [|by left].
        right. split; [done|]. split; [done|]. left. exists card.
        split; [done|]. split; [|done].
        by apply bool_decide_eq_false_2.
    - rewrite (frames_sockets _ (_send (get_captures (Card.id card)) w)).
      2: { unfold sendGetCaptures. cbv zeta.
           apply sockets_send; reflexivity. }
      rewrite frames_send by done.
      destruct (socket_open w) eqn:Ho; [|by left].
      right. split; [done|]. split; [done|]. left. by exists card. }
  7: { (* table card *)
    unfold handleTableCard.
    destruct (selectedCard (stores w)) as [sel|] eqn:Hsel; [|by left].
    destruct (isMyTurn (stores w)) eqn:Hturn; cbn [negb]; [|by left].
    case_match; [by left|]. wsimpl.
    destruct (find _ _) as [exactMatch|] eqn:Hfind; [|by left].
    rewrite (frames_sockets _ (_send (play (Card.id sel) exactMatch) w)).
    2: { unfold executePlay, sendPlay. wsimpl.
         apply sockets_send; reflexivity. }
    rewrite frames_send by done.
    destruct (socket_open w) eqn:Ho; [|by left].
    right. split; [done|]. split; [done|]. right.
    exists sel, exactMatch.
    split; [done|]. split; [done|]. split; [|split; [done|]].
    - right. apply find_some in Hfind as [Hin _]. by apply list_elem_of_In.
    - apply flush_cleared, executePlay_cleared. }
  all: left; unfold frames, transmitted; unfold_handlers;
    repeat (wsimpl; case_match); expose_scopas; wsimpl;
    rewrite ?fmap_app, ?concat_app, ?frames_close, ?frames_state;
    cbn; rewrite ?app_nil_r; try done.
Qed.

Lemma frames_grow_only_by_taps_witness :
  reachable selected_world
  ∧ frames (step selected_world (ev_hand_card card_A))
    ≠ frames selected_world
  ∧ ∃ m, frames (step selected_world (ev_hand_card card_A))
         = frames selected_world ++ [m].
Proof.
  assert (frames (step selected_world (ev_hand_card card_A))
          ≠ frames selected_world) as Hne.
  { vm_compute. discriminate. }
  split; [exact reachable_selected|]. split; [exact Hne|].
  destruct (frames_grow_only_by_taps selected_world (ev_hand_card card_A)
              reachable_selected)
    as [Hsame|(_ & _ & [(c & _ & _ & Hf)|(sel & ids & _ & _ & _ & Hf & _)])].
  - destruct (Hne Hsame).
  - eexists. exact Hf.
  - eexists. exact Hf.
Defined.

(** X11.  In a reachable world [_ws], when set, refers to the socket
    created last; a socket that is connecting or open is that socket; and
    when [_send] would transmit, the last socket is open. *)
Theorem only_newest_socket_is_live (w : World) :
  reachable w →
  (∀ k, _ws w = Some k → S k = length (sockets w))
  ∧ (∀ k sock, sockets w !! k = Some sock → live sock = true →
       _ws w = Some k ∧ last (sockets w) = Some sock)
  ∧ (socket_open w = true →
       ∃ sock, last (sockets w) = Some sock ∧ readyState sock = OPEN).
Proof.
  intros Hw. pose proof (reachable_ws_is_last w Hw) as Hlast.
  pose proof (reachable_socket_inv w Hw) as Hlive.
  split; [done|]. split.
  - intros k sock Hk Hl. pose proof (Hlive _ _ Hk Hl) as Hws.
    split; [done|]. rewrite last_lookup, <- (Hlast _ Hws). by cbn.
  - unfold socket_open. intros Ho.
    destruct (_ws w) as [k|] eqn:Hws; [|done].
    destruct (sockets w !! k) as [sock|] eqn:Hk; [|done].
    exists sock. apply bool_decide_eq_true_1 in Ho. split; [|done].
    rewrite last_lookup, <- (Hlast _ eq_refl). by cbn.
Qed.

Lemma only_newest_socket_is_live_witness :
  reachable reconnected_world
  ∧ _ws reconnected_world = Some 1%nat
  ∧ length (sockets reconnected_world) = 2%nat
  ∧ socket_open reconnected_world = true
  ∧ ∃ sock, last (sockets reconnected_world) = Some sock
      ∧ readyState sock = OPEN.
Proof.
  assert (_ws reconnected_world = Some 1%nat) as Hws.
  { vm_compute. reflexivity. }
  assert (socket_open reconnected_world = true) as Ho.
  { vm_compute. reflexivity. }
  destruct (only_newest_socket_is_live reconnected_world
              reachable_reconnected) as (Hlast & _ & Hopen).
  split; [exact reachable_reconnected|]. split; [exact Hws|].
  split; [symmetry; exact (Hlast _ Hws)|]. split; [exact Ho|].
  exact (Hopen Ho).
Defined.

Lemma disconnect_dead w k sock :
  socket_inv w → sockets (disconnect w) !! k = Some sock → live sock = false.
Proof.
  unfold socket_inv, disconnect. intros Hinv Hk.
  destruct (_ws w) as [n|] eqn:Hws.
  - cbn in Hk. destruct (live sock) eqn:Hl; [|done].
    pose proof (only_live_close n (sockets w) Hinv _ _ Hk Hl). done.
  - destruct (live sock) eqn:Hl; [|done]. by pose proof (Hinv _ _ Hk Hl).
Qed.

(** X12.  [disconnect] in a reachable world: [_ws] is cleared and no
    socket is connecting or open any more, but no store changes (the
    status is written only when the close event arrives), nothing is
    logged or sent, and no socket is added or removed.  Afterwards
    [_send] only logs its warning, a second [disconnect] changes nothing,
    and [onDestroy] of the page does the same. *)
Theorem disconnect_closes_quietly (w : World) :
  reachable w →
  let w' := step w ev_disconnect in
  _ws w' = None
  ∧ stores w' = stores w
  ∧ console w' = console w ∧ timers w' = timers w
  ∧ frames w' = frames w
  ∧ length (sockets w') = length (sockets w)
  ∧ (∀ k sock, sockets w' !! k = Some sock → live sock = false)
  ∧ (∀ m, _send m w' = console_write (log_cannot_send m) w')
  ∧ step w' ev_disconnect = w'
  ∧ step w ev_page_destroy = w'.
Proof.
  intros Hw w'.
  assert (reachable w') as Hw' by by constructor.
  assert (_ws w' = None) as Hws.
  { subst w'. unfold step. rewrite flush_ws. cbn [handle]. unfold disconnect.
    by case_match. }
  split; [done|]. subst w'. unfold step in *. cbn [handle] in *.
  rewrite flush_stores, flush_console, flush_timers, frames_flush,
    flush_sockets.
  split; [unfold disconnect; by case_match|].
  split; [unfold disconnect; by case_match|].
  split; [unfold disconnect; by case_match|].
  split.
  { unfold frames, transmitted, disconnect. case_match; [|done].
    wsimpl. by rewrite frames_close. }
  split.
  { unfold disconnect. case_match; [|done]. wsimpl. by rewrite length_alter. }
  split.
  { intros k sock. apply disconnect_dead. by apply reachable_socket_inv. }
  split.
  { intros m. apply send_when_closed. unfold socket_open. by rewrite Hws. }
  split; [|done].
  destruct (reachable_board_inv _ Hw') as [H1 H2 _ _ _].
  unfold disconnect at 1. rewrite Hws. by apply flush_clean.
Qed.

Lemma disconnect_closes_quietly_witness :
  reachable playing_world
  ∧ socket_open playing_world = true
  ∧ _ws (step playing_world ev_disconnect) = None
  ∧ stores (step playing_world ev_disconnect) = stores playing_world
  ∧ ∀ m, _send m (step playing_world ev_disconnect)
         = console_write (log_cannot_send m)
             (step playing_world ev_disconnect).
Proof.
  split; [exact reachable_playing|].
  split; [vm_compute; reflexivity|].
  destruct (disconnect_closes_quietly playing_world reachable_playing)
    as (Hws & Hst & _ & _ & _ & _ & _ & Hsend & _).
  split; [exact Hws|]. split; [exact Hst|exact Hsend].
Defined.

(** What the page shows for a status of [disconnected]. *)
Lemma page_view_disconnected (s : Stores) :
  wsStatus s = disconnected →
  page_view s
  = if isWaiting s
    then page_lobby (if truthy_string (joinCode s) then joinCode s else None)
    else if has_gameState s
         then page_game
                (if isDealing s then Some (roundNumber s, dealType s)
                 else None) true
         else page_disconnected.
Proof.
  intros Hs. unfold page_view, isConnecting, isWaitingForOpponent,
    isDisconnected. rewrite Hs.
  rewrite (bool_decide_eq_false_2 (disconnected = connecting)) by done.
  rewrite (bool_decide_eq_false_2 (disconnected = waiting)) by done.
  rewrite (bool_decide_eq_true_2 (disconnected = disconnected)) by done.
  cbn [orb andb]. destruct (isWaiting s); [done|].
  destruct (has_gameState s); cbn [negb]; [|done].
  by rewrite orb_true_r.
Qed.

(** X13.  When a socket that is not yet closed closes or fails, the
    status becomes [disconnected] and nothing else is written to the
    stores; the socket is closed, [_ws] still refers to what it referred
    to, and the console gets the close line, after the error line for a
    failure.  If it was the current socket, [_send] no longer transmits;
    if it was a socket replaced by a later [connect], the current
    connection is as usable as before, although the status now says
    [disconnected].  The page shows the lobby while waiting, else the
    board if there is a game state, else the disconnected screen. *)
Theorem socket_loss_marks_disconnected (w : World) (k : nat)
    (sock : WebSocket) (failed : bool) :
  sockets w !! k = Some sock → readyState sock ≠ CLOSED →
  let w' := step w (if failed then ev_socket_error k
                    else ev_socket_close k) in
  stores w' = with_wsStatus disconnected (stores w)
  ∧ sockets w' = <[k := with_readyState CLOSED sock]> (sockets w)
  ∧ _ws w' = _ws w
  ∧ console w'
    = console w ++ (if failed then [log_ws_error; log_closed]
                    else [log_closed])
  ∧ timers w' = timers w
  ∧ (_ws w = Some k → socket_open w' = false)
  ∧ (_ws w ≠ Some k → socket_open w' = socket_open w)
  ∧ page_view (stores w')
    = if isWaiting (stores w)
      then page_lobby (if truthy_string (joinCode (stores w))
                       then joinCode (stores w) else None)
      else if has_gameState (stores w)
           then page_game
                  (if isDealing (stores w)
                   then Some (roundNumber (stores w), dealType (stores w))
                   else None) true
           else page_disconnected.
Proof.
  intros Hk Hr w'.
  assert (alter (with_readyState CLOSED) k (sockets w)
          = <[k := with_readyState CLOSED sock]> (sockets w)) as Halter.
  { apply list_eq. intros j. destruct (decide (k = j)) as [->|].
    - rewrite list_lookup_alter_eq, list_lookup_insert_eq, Hk; [done|].
      by eapply lookup_lt_Some.
    - by rewrite list_lookup_alter_ne, list_lookup_insert_ne. }
  assert (stores w' = with_wsStatus disconnected (stores w)
          ∧ sockets w' = <[k := with_readyState CLOSED sock]> (sockets w)
          ∧ _ws w' = _ws w
          ∧ console w'
            = console w ++ (if failed then [log_ws_error; log_closed]
                            else [log_closed])
          ∧ timers w' = timers w) as (Hst & Hso & Hws & Hco & Hti).
  { subst w'. unfold step.
    rewrite flush_stores, flush_sockets, flush_ws, flush_console, flush_timers.
    rewrite <- Halter.
    destruct failed; cbn [handle];
      unfold socket_closes, socket_fails; rewrite Hk;
      rewrite (bool_decide_eq_false_2 (readyState sock = CLOSED)) by done;
      unfold onclose, onerror, console_write; wsimpl; [|done].
    by rewrite <- app_assoc. }
  repeat (split; [done|]). split; [|split].
  - intros Hcur. unfold socket_open. rewrite Hws, Hso, Hcur.
    rewrite list_lookup_insert_eq by by eapply lookup_lt_Some. done.
  - intros Hcur. unfold socket_open. rewrite Hws, Hso.
    destruct (_ws w) as [n|]; [|done].
    rewrite list_lookup_insert_ne by congruence. done.
  - rewrite page_view_disconnected by by rewrite Hst.
    rewrite Hst. unfold has_gameState. done.
Qed.

Lemma socket_loss_marks_disconnected_witness :
  sockets reconnected_world !! 0%nat = Some closing_socket
  ∧ readyState closing_socket ≠ CLOSED
  ∧ _ws reconnected_world ≠ Some 0%nat
  ∧ socket_open reconnected_world = true
  ∧ wsStatus (stores (step reconnected_world (ev_socket_close 0)))
    = disconnected
  ∧ socket_open (step reconnected_world (ev_socket_close 0)) = true
  ∧ sockets connected_world !! 0%nat = Some connected_socket
  ∧ _ws connected_world = Some 0%nat
  ∧ socket_open (step connected_world (ev_socket_error 0)) = false.
Proof.
  assert (sockets reconnected_world !! 0%nat = Some closing_socket) as Hk.
  { vm_compute. reflexivity. }
  assert (readyState closing_socket ≠ CLOSED) as Hr by discriminate.
  assert (_ws reconnected_world ≠ Some 0%nat) as Hws.
  { vm_compute. discriminate. }
  assert (socket_open reconnected_world = true) as Ho.
  { vm_compute. reflexivity. }
  assert (sockets connected_world !! 0%nat = Some connected_socket) as Hk'.
  { vm_compute. reflexivity. }
  assert (readyState connected_socket ≠ CLOSED) as Hr' by discriminate.
  assert (_ws connected_world = Some 0%nat) as Hws'.
  { vm_compute. reflexivity. }
  destruct (socket_loss_marks_disconnected reconnected_world 0
              closing_socket false Hk Hr)
    as (Hst & _ & _ & _ & _ & _ & Hother & _).
  destruct (socket_loss_marks_disconnected connected_world 0
              connected_socket true Hk' Hr')
    as (_ & _ & _ & _ & _ & Hcur & _).
  split; [exact Hk|]. split; [exact Hr|]. split; [exact Hws|].
  split; [exact Ho|].
  split; [rewrite Hst; reflexivity|].
  split; [rewrite (Hother Hws); exact Ho|].
  split; [exact Hk'|]. split; [exact Hws'|]. exact (Hcur Hws').
Defined.

Lemma send_console m w :
  console (_send m w)
  = if socket_open w then console w else console w ++ [log_cannot_send m].
Proof. unfold _send, socket_open. by repeat case_match. Qed.

Lemma alter_last {A} (f : A → A) (l : list A) (x : A) :
  alter f (length l) (l ++ [x]) = l ++ [f x].
Proof. induction l as [|a l IH]; cbn; [done|]. f_equal. apply IH. Qed.

Lemma connect_shape (w : World) (sid pid : string) :
  ∃ l u, sockets (step w (ev_connect sid pid)) = l ++ [new_WebSocket u]
    ∧ length l = length (sockets w)
    ∧ sentFrames <$> l = sentFrames <$> sockets w
    ∧ _ws (step w (ev_connect sid pid)) = Some (length (sockets w))
    ∧ wsStatus (stores (step w (ev_connect sid pid))) = connecting.
Proof.
  unfold step. rewrite flush_sockets, flush_ws, flush_stores.
  cbn [handle]. unfold connect.
  wsimpl. destruct (_ws w) as [n|]; wsimpl.
  - eexists _, _. split; [done|]. rewrite length_alter, frames_close. done.
  - eexists _, _. split; [done|]. done.
Qed.

Lemma open_shape (w : World) (l : list WebSocket) (u : string) :
  sockets w = l ++ [new_WebSocket u] → _ws w = Some (length l) →
  sockets (step w (ev_socket_open (length l)))
  = l ++ [with_readyState OPEN (new_WebSocket u)]
  ∧ _ws (step w (ev_socket_open (length l))) = Some (length l)
  ∧ wsStatus (stores (step w (ev_socket_open (length l)))) = connected.
Proof.
  intros Hso Hws.
  assert (sockets w !! length l = Some (new_WebSocket u)) as Hk.
  { rewrite Hso, lookup_app_r by lia. by rewrite Nat.sub_diag. }
  unfold step. rewrite flush_sockets, flush_ws, flush_stores.
  cbn [handle]. unfold socket_opens. rewrite Hk.
  rewrite (bool_decide_eq_true_2 (readyState (new_WebSocket u) = CONNECTING))
    by done.
  unfold onopen, console_write. wsimpl. rewrite Hso.
  split; [|done]. apply alter_last.
Qed.

(** X14.  After [connect] the page shows the connecting screen and a
    frame given to [_send] is not queued for the new socket: it is
    dropped with a warning.  Once the new socket has opened, the status
    is [connected] and [_send] transmits without logging, the frame
    coming after all those sent on earlier connections. *)
Theorem frames_before_open_are_dropped (w : World) (sid pid : string)
    (m : OutMsg) :
  let k := length (sockets w) in
  let w1 := step w (ev_connect sid pid) in
  let w2 := step w1 (ev_socket_open k) in
  page_view (stores w1) = page_connecting
  ∧ frames w1 = frames w
  ∧ _send m w1 = console_write (log_cannot_send m) w1
  ∧ wsStatus (stores w2) = connected
  ∧ socket_open w2 = true
  ∧ frames (_send m w2) = frames w ++ [m]
  ∧ console (_send m w2) = console w2.
Proof.
  intros k w1 w2.
  destruct (connect_shape w sid pid) as (l & u & Hso & Hlen & Hfr & Hws & Hst).
  fold k in Hlen, Hws. fold w1 in Hso, Hws, Hst.
  assert (w2 = step w1 (ev_socket_open (length l))) as Hw2
    by (by rewrite Hlen).
  rewrite <- Hlen in Hws.
  destruct (open_shape w1 l u Hso Hws) as (Hso2 & Hws2 & Hst2).
  rewrite <- Hw2 in Hso2, Hws2, Hst2.
  clear Hw2. clearbody w2 w1 k.
  assert (sockets w1 !! length l = Some (new_WebSocket u)) as Hk.
  { rewrite Hso, lookup_app_r by lia. by rewrite Nat.sub_diag. }
  assert (frames w1 = frames w) as Hf1.
  { unfold frames, transmitted. rewrite Hso, fmap_app, concat_app, Hfr.
    cbn. by rewrite app_nil_r. }
  assert (socket_open w2 = true) as Ho2.
  { unfold socket_open. rewrite Hws2, Hso2, lookup_app_r by lia.
    by rewrite Nat.sub_diag. }
  split.
  { unfold page_view, isConnecting. by rewrite Hst. }
  split; [done|]. split.
  { apply send_when_closed. unfold socket_open. by rewrite Hws, Hk. }
  split; [done|]. split; [done|].
  split.
  - rewrite frames_send, Ho2.
    + f_equal. unfold frames, transmitted.
      rewrite Hso2, fmap_app, concat_app, Hfr. cbn. by rewrite app_nil_r.
    + intros j Hj. rewrite Hws2 in Hj. injection Hj as <-.
      rewrite Hso2, length_app. cbn [length]. lia.
  - by rewrite send_console, Ho2.
Qed.

(** X15.  [onMount] either leaves the client as it is, when the
    [playerId] store is empty and session storage has no player id or is
    for another session, or connects: then the id cached for scopa
    detection is the non-empty id in the [playerId] store, the status is
    [connecting], [_ws] refers to a new connecting socket, and the game
    state and the lobby flag are untouched.  The id comes from the store
    if it holds one (the session id and the join code are then left
    alone), else from session storage, with the session id of the route
    and the stored join code if that is not empty. *)
Theorem mount_connects_with_known_identity (w : World) (sid : string)
    (storage : SessionStorage) :
  let w' := onMount sid storage w in
  (w' = w
   ∧ truthy_string (playerId (stores w)) = false
   ∧ (truthy_string (scopa_player_id storage) = false
      ∨ scopa_session_id storage ≠ Some sid))
  ∨ (∃ pid, pid ≠ ""
       ∧ _myPlayerId w' = Some pid
       ∧ playerId (stores w') = Some pid
       ∧ wsStatus (stores w') = connecting
       ∧ _ws w' = Some (length (sockets w))
       ∧ (∃ u, sockets w' !! length (sockets w) = Some (new_WebSocket u))
       ∧ gameState (stores w') = gameState (stores w)
       ∧ isWaiting (stores w') = isWaiting (stores w)
       ∧ ((truthy_string (playerId (stores w)) = true
           ∧ playerId (stores w) = Some pid
           ∧ sessionId (stores w') = sessionId (stores w)
           ∧ joinCode (stores w') = joinCode (stores w))
          ∨ (truthy_string (playerId (stores w)) = false
             ∧ scopa_player_id storage = Some pid
             ∧ scopa_session_id storage = Some sid
             ∧ sessionId (stores w') = Some sid
             ∧ joinCode (stores w')
               = if truthy_string (scopa_join_code storage)
                 then scopa_join_code storage else joinCode (stores w)))).
Proof.
  intros w'. subst w'.
  assert (∀ v pid, ∃ u,
            sockets (connect sid pid v) !! length (sockets v)
            = Some (new_WebSocket u)) as Hnew.
  { intros v pid. unfold connect. wsimpl.
    destruct (_ws v); wsimpl; eexists;
      rewrite lookup_app_r, ?length_alter, ?Nat.sub_diag; try done;
      rewrite ?length_alter; lia. }
  assert (∀ v pid, _ws (connect sid pid v) = Some (length (sockets v))) as Hws.
  { intros v pid. unfold connect. wsimpl.
    destruct (_ws v); wsimpl; by rewrite ?length_alter. }
  assert (∀ v pid, stores (connect sid pid v)
                   = with_wsStatus connecting (stores v)) as Hst.
  { intros v pid. unfold connect. wsimpl. by destruct (_ws v). }
  assert (∀ v pid, _myPlayerId (connect sid pid v) = Some pid) as Hme.
  { intros v pid. unfold connect. wsimpl. by destruct (_ws v). }
  assert (∀ pid, truthy_string (Some pid) = true → pid ≠ "") as Hne.
  { intros pid H ->. done. }
  unfold onMount, restore_identity.
  destruct (playerId (stores w)) as [p|] eqn:Hp.
  - destruct (truthy_string (Some p)) eqn:Ht.
    + right. exists p. rewrite Hws, Hst, Hme.
      destruct (Hnew w p) as [u Hu].
      repeat split; eauto.
    + destruct (scopa_player_id storage) as [q|] eqn:Hq; [|left; auto].
      destruct (truthy_string (Some q)) eqn:Htq; cbn [negb orb];
        [|left; auto].
      case_bool_decide as Hsid; cbn [negb]; [|left; auto].
      right. exists q. rewrite Hws, Hst, Hme.
      match goal with |- context [connect sid q ?v] =>
        destruct (Hnew v q) as [u Hu] end.
      destruct (truthy_string (scopa_join_code storage)) eqn:Hj; wsimpl.
      all: repeat split; eauto.
      all: try (right; by rewrite ?Hj).
  - destruct (scopa_player_id storage) as [q|] eqn:Hq; [|left; auto].
    destruct (truthy_string (Some q)) eqn:Htq; cbn [negb orb];
      [|left; auto].
    case_bool_decide as Hsid; cbn [negb]; [|left; auto].
    right. exists q. rewrite Hws, Hst, Hme.
    match goal with |- context [connect sid q ?v] =>
      destruct (Hnew v q) as [u Hu] end.
    destruct (truthy_string (scopa_join_code storage)) eqn:Hj; wsimpl.
    all: repeat split; eauto.
    all: try (right; by rewrite ?Hj).
Qed.

Lemma page_view_waiting (s : Stores) :
  isWaiting s = true →
  page_view s = page_connecting ∨ ∃ code, page_view s = page_lobby code.
Proof.
  intros Hs. unfold page_view, isWaitingForOpponent. rewrite Hs, orb_true_r.
  destruct (isConnecting s); eauto.
Qed.

(** X16.  Once the client waits for an opponent, [isWaiting] stays true
    whatever happens, also when the connection is lost, and the page
    shows the lobby or the connecting screen, until a [game_started]
    message is delivered on an open socket. *)
Theorem lobby_until_game_started (w : World) (e : Event) :
  isWaiting (stores w) = true →
  let w' := step w e in
  (isWaiting (stores w') = true
   ∧ (page_view (stores w') = page_connecting
      ∨ ∃ code, page_view (stores w') = page_lobby code))
  ∨ (∃ k opp round,
       e = ev_socket_message k (frame_json (msg_game_started opp round))
       ∧ delivers k w = true
       ∧ isWaiting (stores w') = false).
Proof.
  intros Hwait w'.
  assert (isWaiting (stores w') = true →
          isWaiting (stores w') = true
          ∧ (page_view (stores w') = page_connecting
             ∨ ∃ code, page_view (stores w') = page_lobby code)) as Hpage.
  { intros H. split; [done|]. by apply page_view_waiting. }
  destruct (isWaiting (stores w')) eqn:Hw'; [left; by apply Hpage|].
  clear Hpage. right. subst w'. unfold step in Hw'.
  rewrite flush_stores in Hw'. unfold delivers.
  destruct e as [| | | | | | | | | | k f | | |].
  11: { cbn [handle] in Hw'. unfold socket_delivers in *.
        destruct (sockets w !! k) as [sock|] eqn:Hk; [|congruence].
        destruct (bool_decide (readyState sock = OPEN)) eqn:Ho;
          [|congruence].
        destruct f as [data|msg]; [|destruct msg].
        all: first
          [ solve [ exfalso; revert Hw'; unfold onmessage, _dispatch;
                    repeat (wsimpl; case_match); expose_scopas; wsimpl;
                    congruence ]
          | eexists k, _, _; rewrite Hk, Ho; done ]. }
  all: exfalso; revert Hw'; unfold_handlers;
    repeat (wsimpl; case_match); expose_scopas; wsimpl; congruence.
Qed.

Lemma lobby_until_game_started_witness :
  isWaiting (stores lobby_world) = true
  ∧ isWaiting (stores (step lobby_world (ev_socket_close 0))) = true
  ∧ ∃ code, page_view (stores (step lobby_world (ev_socket_close 0)))
            = page_lobby code.
Proof.
  assert (isWaiting (stores lobby_world) = true) as Hw.
  { vm_compute. reflexivity. }
  assert (page_view (stores (step lobby_world (ev_socket_close 0)))
          ≠ page_connecting) as Hnc.
  { vm_compute. discriminate. }
  split; [exact Hw|].
  destruct (lobby_until_game_started lobby_world (ev_socket_close 0) Hw)
    as [[Hstill [Hc|Hl]]|(k & opp & round & Hev & _)].
  - destruct (Hnc Hc).
  - split; [exact Hstill|exact Hl].
  - discriminate Hev.
Defined.

(** ** The board between two events *)

Lemma handle_loaded_inv e w : loaded_inv w → loaded_inv (handle e w).
Proof.
  unfold loaded_inv. intros H.
  destruct e as [| | | | | | | | | | k f | | |].
  11: { cbn [handle]. unfold socket_delivers, onmessage.
        repeat case_match; try done.
        all: unfold _dispatch; repeat (wsimpl; case_match); expose_scopas;
          wsimpl; done. }
  all: unfold_handlers; repeat (wsimpl; case_match); expose_scopas; wsimpl;
    done.
Qed.

Lemma reachable_loaded_inv w : reachable w → loaded_inv w.
Proof.
  induction 1 as [loc|w e _ IH]; [done|].
  unfold step, loaded_inv. rewrite flush_stores. by apply handle_loaded_inv.
Qed.

(** X17.  Between two events of a reachable world: the capturable ids
    are the flattened capture options; nothing is pending without a
    selected card; a card is selected only on the local player's turn;
    capture options are held only once the server's answer has been
    recorded; a table card shown pending or capturable passes the guards
    of [handleTableCard]; and the hint strip is hidden exactly when no
    card is selected. *)
Theorem board_state_between_events (w : World) :
  reachable w →
  capturableIds w = list_to_set (concat (captureOptions (stores w)))
  ∧ (selectedCard (stores w) = None → pendingTableIds w = ∅)
  ∧ (has_selection w = true → isMyTurn (stores w) = true)
  ∧ (capturesLoaded (stores w) = false → captureOptions (stores w) = [])
  ∧ (∀ card, table_pending card w = true ∨ table_capturable card w = true →
       has_selection w = true ∧ isMyTurn (stores w) = true
       ∧ table_guard card w = true)
  ∧ (capture_hint w = None ↔ selectedCard (stores w) = None).
Proof.
  intros Hw. destruct (reachable_board_inv w Hw) as [_ _ Hc Hp Ht].
  pose proof (reachable_loaded_inv w Hw) as Hl.
  split; [done|]. split; [done|].
  assert (has_selection w = true → isMyTurn (stores w) = true) as Ht'.
  { unfold has_selection. intros H. apply Ht.
    by destruct (selectedCard (stores w)). }
  split; [done|]. split; [done|]. split.
  - intros card. unfold table_pending, table_capturable, table_guard.
    unfold has_selection in *.
    destruct (selectedCard (stores w)) as [sel|];
      [|cbn; intros [?|?]; done].
    rewrite (bool_decide_eq_true_2 (is_Some (Some sel))) by eauto.
    rewrite Ht' by done. cbn [andb].
    intros [H|H]; repeat split; try done.
    + by rewrite H, orb_true_r.
    + apply andb_true_iff in H as [-> _]. done.
  - unfold capture_hint, has_selection in *.
    destruct (selectedCard (stores w)) as [sel|]; [|done].
    rewrite Ht' by done. split; [|done]. by repeat case_match.
Qed.

Lemma board_state_between_events_witness :
  reachable partial_world
  ∧ table_pending card_c1 partial_world = true
  ∧ table_guard card_c1 partial_world = true
  ∧ capturableIds partial_world
    = list_to_set (concat (captureOptions (stores partial_world))).
Proof.
  assert (table_pending card_c1 partial_world = true) as Hp.
  { vm_compute. reflexivity. }
  destruct (board_state_between_events partial_world reachable_partial)
    as (Hcap & _ & _ & _ & Hshown & _).
  split; [exact reachable_partial|]. split; [exact Hp|].
  split; [|exact Hcap].
  destruct (Hshown card_c1 (or_introl Hp)) as (_ & _ & Hg). exact Hg.
Defined.

Lemma send_stores m w : stores (_send m w) = stores w.
Proof. unfold _send. by repeat case_match. Qed.

Lemma send_timers m w : timers (_send m w) = timers w.
Proof. unfold _send. by repeat case_match. Qed.

Lemma cancelSelection_timers w : timers (cancelSelection w) = timers w.
Proof. reflexivity. Qed.

Lemma cancelSelection_console w : console (cancelSelection w) = console w.
Proof. reflexivity. Qed.

Lemma cancelSelection_sockets w : sockets (cancelSelection w) = sockets w.
Proof. reflexivity. Qed.

(** X18.  Selecting a card and cancelling is a round trip for the
    board: from a reachable world with no selection and no recorded
    answer, on the local player's turn, every store, the pending set, the
    capturable ids and the timers are as before; what remains is the
    [get_captures] request sent if the connection was open, or the
    warning logged if it was not. *)
Theorem select_then_cancel_restores_board (w : World) (card : Card.t) :
  reachable w →
  selectedCard (stores w) = None → capturesLoaded (stores w) = false →
  isMyTurn (stores w) = true →
  let w1 := step w (ev_hand_card card) in
  let w2 := step w1 ev_cancel in
  capture_hint w1 ≠ None
  ∧ stores w2 = stores w
  ∧ pendingTableIds w2 = pendingTableIds w
  ∧ capturableIds w2 = capturableIds w
  ∧ timers w2 = timers w
  ∧ frames w2
    = (if socket_open w then frames w ++ [get_captures (Card.id card)]
       else frames w)
  ∧ console w2
    = (if socket_open w then console w
       else console w ++ [log_cannot_send (get_captures (Card.id card))]).
Proof.
  intros Hw Hsel Hload Hturn w1 w2.
  destruct (reachable_board_inv w Hw) as [_ _ Hc Hp _].
  pose proof (reachable_loaded_inv w Hw Hload) as Hopts.
  pose proof (reachable_ws_is_last w Hw) as Hlast.
  specialize (Hp Hsel). rewrite Hopts in Hc.
  assert (reachable w2) as Hw2 by (do 2 constructor; done).
  destruct (reachable_board_inv w2 Hw2) as [_ _ Hc2 Hp2 _].
  assert (hand_selected card w = false) as Hns.
  { unfold hand_selected. by rewrite Hsel. }
  assert (stores w1
          = with_capturesLoaded false
              (with_captureOptions []
                 (with_selectedCard (Some card) (stores w)))) as Hs1.
  { subst w1. unfold step. rewrite flush_stores. cbn [handle].
    rewrite (handleHandCard_selects w card Hturn Hns).
    unfold sendGetCaptures. by rewrite send_stores. }
  assert (stores w2 = stores w) as Hs2.
  { subst w2. unfold step. rewrite flush_stores. cbn [handle].
    unfold cancelSelection. wsimpl. rewrite Hs1.
    clear -Hsel Hload Hopts. destruct (stores w).
    cbn in *. by subst. }
  split.
  { unfold capture_hint, isMyTurn in *. rewrite Hs1.
    unfold with_capturesLoaded, with_captureOptions, with_selectedCard.
    cbn -[length size]. by rewrite Hturn. }
  split; [done|].
  split; [rewrite Hp2, Hp; [done|by rewrite Hs2]|].
  split; [by rewrite Hc2, Hs2, Hopts, Hc|].
  clear Hw2 Hc2 Hp2 Hs1 Hs2. subst w2 w1. unfold step. cbn [handle].
  rewrite (handleHandCard_selects w card Hturn Hns).
  rewrite flush_timers, frames_flush, flush_console.
  rewrite cancelSelection_timers, cancelSelection_console,
    (frames_sockets _ _ (cancelSelection_sockets _)).
  rewrite flush_timers, frames_flush, flush_console.
  unfold sendGetCaptures. rewrite send_timers, send_console.
  rewrite (frames_sockets _ (_send (get_captures (Card.id card)) w))
    by (apply sockets_send; reflexivity).
  rewrite frames_send by done. done.
Qed.

Lemma select_then_cancel_restores_board_witness :
  reachable playing_world
  ∧ selectedCard (stores playing_world) = None
  ∧ capturesLoaded (stores playing_world) = false
  ∧ isMyTurn (stores playing_world) = true
  ∧ stores (step (step playing_world (ev_hand_card card_A)) ev_cancel)
    = stores playing_world
  ∧ frames (step (step playing_world (ev_hand_card card_A)) ev_cancel)
    = frames playing_world ++ [get_captures "A"].
Proof.
  destruct playing_world_fields as (Hsel & Hload & Hturn & _).
  assert (socket_open playing_world = true) as Ho.
  { vm_compute. reflexivity. }
  destruct (select_then_cancel_restores_board playing_world card_A
              reachable_playing Hsel Hload Hturn)
    as (_ & Hst & _ & _ & _ & Hf & _).
  split; [exact reachable_playing|]. split; [exact Hsel|].
  split; [exact Hload|]. split; [exact Hturn|]. split; [exact Hst|].
  rewrite Hf, Ho. reflexivity.
Defined.

Lemma cards_lookup sequence i card :
  cards sequence !! i = Some card →
  (i < length sequence)%nat ∧ delay card = (Z.of_nat i * DEAL_INTERVAL)%Z.
Proof.
  unfold cards. rewrite list_lookup_imap.
  destruct (sequence !! i) as [it|] eqn:Hi; [|done].
  intros [= <-]. split; [by eapply lookup_lt_Some|done].
Qed.

Lemma deal_timers_elem sequence t s :
  (t, s) ∈ deal_timers sequence ↔
  (t = 350%Z ∧ s = deal_glow)
  ∨ (∃ i card, cards sequence !! i = Some card
       ∧ ((t = (350 + delay card)%Z ∧ s = deal_fly i)
          ∨ (t = (350 + delay card + CARD_DURATION)%Z ∧ s = deal_land i)))
  ∨ (t = (350 + totalMs sequence)%Z ∧ s = deal_done).
Proof.
  unfold deal_timers. rewrite elem_of_cons, elem_of_app, list_elem_of_In,
    in_concat, list_elem_of_singleton.
  split.
  - intros [[= -> ->]|[(l & Hl & Hin)|[= -> ->]]];
      [by left| |by right; right].
    right; left. apply list_elem_of_In, elem_of_lookup_imap in Hl
      as (i & card & -> & Hi).
    exists i, card. split; [done|].
    apply list_elem_of_In in Hin.
    rewrite !elem_of_cons, elem_of_nil in Hin.
    destruct Hin as [[= -> ->]|[[= -> ->]|[]]]; eauto.
  - intros [[-> ->]|[(i & card & Hi & Hs)|[-> ->]]];
      [by left| |by right; right].
    right; left. eexists. split.
    + apply list_elem_of_In, elem_of_lookup_imap. by exists i, card.
    + apply list_elem_of_In. destruct Hs as [[-> ->]|[-> ->]]; set_solver.
Qed.

Lemma length_concat_imap_pairs {A B} (g : nat → A → list B) (l : list A) :
  (∀ i x, length (g i x) = 2%nat) →
  length (concat (imap g l)) = (2 * length l)%nat.
Proof.
  revert g. induction l as [|x l IH]; intros g Hg; [done|].
  cbn [imap concat length]. rewrite length_app, Hg, IH; [lia|].
  intros i y. apply Hg.
Qed.

(** X19.  The timers of the deal animation, for any sequence: card [i]
    takes off 350 + 130 i ms after the mount and lands 500 ms later; no
    timer is due before 350 ms; [done] is the last, 350 ms plus [totalMs]
    after the mount, more than [FINISH_DELAY] after any other timer and
    at least [FINISH_DELAY] plus one interval after every landing; every
    landing has its take-off; there are two timers per card and two
    more.  [totalMs] is 2400 ms for the full deal and 1880 ms for the
    hands. *)
Theorem deal_finishes_after_last_landing (sequence : list DealItem) :
  (∀ i card, cards sequence !! i = Some card →
     (350 + delay card, deal_fly i)%Z ∈ deal_timers sequence
     ∧ (350 + delay card + CARD_DURATION, deal_land i)%Z
         ∈ deal_timers sequence
     ∧ delay card = (130 * Z.of_nat i)%Z
     ∧ flying card = false ∧ landed card = false)
  ∧ (∀ t s, (t, s) ∈ deal_timers sequence →
       (350 ≤ t)%Z
       ∧ (s = deal_done → t = 350 + totalMs sequence)%Z
       ∧ (s ≠ deal_done → t + FINISH_DELAY < 350 + totalMs sequence)%Z
       ∧ (∀ i, s = deal_land i →
            t + FINISH_DELAY + DEAL_INTERVAL ≤ 350 + totalMs sequence)%Z)
  ∧ (∀ t i, (t, deal_land i) ∈ deal_timers sequence →
       (t - CARD_DURATION, deal_fly i)%Z ∈ deal_timers sequence)
  ∧ length (deal_timers sequence) = (2 * length sequence + 2)%nat
  ∧ totalMs (SEQUENCE full) = 2400%Z ∧ totalMs (SEQUENCE hands) = 1880%Z.
Proof.
  split; [|split; [|split; [|split]]].
  - intros i card Hi. pose proof (cards_lookup _ _ _ Hi) as [_ Hd].
    rewrite !deal_timers_elem. unfold DEAL_INTERVAL in Hd.
    split; [right; left; eauto 10|].
    split; [right; left; eauto 10|].
    split; [lia|].
    revert Hi. unfold cards. rewrite list_lookup_imap.
    destruct (sequence !! i); [|done]. by intros [= <-].
  - intros t s. rewrite deal_timers_elem. unfold totalMs, FINISH_DELAY,
      DEAL_INTERVAL, CARD_DURATION.
    intros [[-> ->]|[(i & card & Hi & Hs)|[-> ->]]].
    + repeat split; try done; lia.
    + apply cards_lookup in Hi as [Hlt Hd]. unfold DEAL_INTERVAL in Hd.
      destruct Hs as [[-> ->]|[-> ->]]; repeat split; try done; lia.
    + repeat split; try done; lia.
  - intros t i. rewrite !deal_timers_elem.
    intros [[_ H]|[(j & card & Hj & Hs)|[_ H]]];
      [discriminate H| |discriminate H].
    destruct Hs as [[_ H]|[-> H]]; [discriminate H|]. injection H as <-.
    right; left. eexists _, card. split; [exact Hj|]. left.
    split; [lia|done].
  - unfold deal_timers. cbn [length].
    rewrite length_app, length_concat_imap_pairs by done.
    unfold cards. rewrite length_imap. cbn [length]. lia.
  - done.
Qed.

Lemma deal_finishes_after_last_landing_witness :
  (∃ card, cards (SEQUENCE full) !! 9%nat = Some card
     ∧ delay card = 1170%Z)
  ∧ (2020%Z, deal_land 9) ∈ deal_timers (SEQUENCE full)
  ∧ (2020 + FINISH_DELAY + DEAL_INTERVAL ≤ 350 + totalMs (SEQUENCE full))%Z
  ∧ (1520%Z, deal_fly 9) ∈ deal_timers (SEQUENCE full).
Proof.
  destruct (deal_finishes_after_last_landing (SEQUENCE full))
    as (Hcards & Htimers & Hfly & _).
  assert (cards (SEQUENCE full) !! 9%nat
          = Some {| item := {| dest := dest_opponent; idx := 2 |};
                    translate := (72%Z, "-42vh");
                    flying := false; landed := false; delay := 1170 |})
    as Hc.
  { vm_compute. reflexivity. }
  destruct (Hcards _ _ Hc) as (_ & Hland & Hdelay & _).
  split; [eexists; split; [exact Hc|reflexivity]|].
  split; [exact Hland|].
  destruct (Htimers _ _ Hland) as (_ & _ & _ & Hgap).
  split; [exact (Hgap 9%nat eq_refl)|].
  exact (Hfly _ _ Hland).
Defined.

(** X20.  [getTranslate] sends different destinations to different
    places, so no two cards of a deal land on the same spot; the cards of
    the animation are the items of the sequence in order, each with the
    translation of its item; only the full deal puts cards on the table;
    and every index is between 0 and 3. *)
Theorem dealt_cards_land_apart (type : DealType) :
  (∀ d1 i1 d2 i2,
     getTranslate d1 i1 = getTranslate d2 i2 → d1 = d2 ∧ i1 = i2)
  ∧ NoDup (translate <$> cards (SEQUENCE type))
  ∧ item <$> cards (SEQUENCE type) = SEQUENCE type
  ∧ (∀ card, card ∈ cards (SEQUENCE type) →
       translate card = getTranslate (dest (item card)) (idx (item card))
       ∧ (dest (item card) = dest_table → type = full)
       ∧ (0 ≤ idx (item card) ≤ 3)%Z).
Proof.
  assert (∀ d1 i1 d2 i2,
            getTranslate d1 i1 = getTranslate d2 i2 → d1 = d2 ∧ i1 = i2)
    as Hinj.
  { intros [] i1 [] i2; unfold getTranslate; intros H;
      apply pair_equal_spec in H as [Htx Hty]; try discriminate Hty.
    all: split; [done|lia]. }
  split; [done|].
  assert (NoDup (SEQUENCE type)) as Hnd.
  { destruct type; cbn; repeat (apply NoDup_cons; split; [set_solver|]);
      apply NoDup_nil_2. }
  assert (item <$> cards (SEQUENCE type) = SEQUENCE type) as Hitems.
  { by destruct type. }
  assert (∀ card, card ∈ cards (SEQUENCE type) →
            translate card
            = getTranslate (dest (item card)) (idx (item card))) as Htr.
  { intros card Hc. unfold cards in Hc.
    apply elem_of_lookup_imap in Hc as (i & it & -> & _). done. }
  split; [|split; [done|]].
  - apply (NoDup_fmap_2_strong translate).
    + intros c1 c2 H1 H2 Heq. rewrite (Htr _ H1), (Htr _ H2) in Heq.
      apply Hinj in Heq as [Hd Hi].
      assert (item c1 = item c2) as Hit.
      { destruct (item c1), (item c2); cbn in *; congruence. }
      unfold cards in H1, H2.
      apply elem_of_lookup_imap in H1 as (j1 & it1 & -> & Hj1).
      apply elem_of_lookup_imap in H2 as (j2 & it2 & -> & Hj2).
      cbn in Hit. subst it2.
      by rewrite (NoDup_lookup _ _ _ _ Hnd Hj1 Hj2).
    + rewrite <- Hitems in Hnd. by eapply NoDup_fmap_1.
  - intros card Hc. split; [by apply Htr|].
    assert (item card ∈ SEQUENCE type) as Hin.
    { rewrite <- Hitems. by apply list_elem_of_fmap_2. }
    apply list_elem_of_In in Hin.
    destruct type; cbn in Hin; repeat destruct Hin as [<-|Hin]; try done;
      cbn; split; (done || lia).
Qed.

Lemma dealt_cards_land_apart_witness :
  getTranslate dest_table 3 = (120%Z, "0px")
  ∧ (∀ d i, getTranslate d i = getTranslate dest_table 3 →
       d = dest_table ∧ i = 3%Z)
  ∧ NoDup (translate <$> cards (SEQUENCE hands))
  ∧ ∀ card, card ∈ cards (SEQUENCE hands) → dest (item card) ≠ dest_table.
Proof.
  destruct (dealt_cards_land_apart hands) as (Hinj & Hnd & _ & Hcards).
  split; [reflexivity|].
  split; [intros d i Heq; exact (Hinj _ _ _ _ Heq)|].
  split; [exact Hnd|].
  intros card Hc Ht. destruct (Hcards card Hc) as (_ & Hfull & _).
  discriminate (Hfull Ht).
Defined.

(** X21.  CardBack draws one back per card up to four, never more,
    numbered from 0; the badge with the count is shown exactly when there
    is at least one back; a negative count makes [Array] throw. *)
Theorem stack_shows_at_most_four (count : Z) :
  ((count < 0)%Z → stack_backs count = None)
  ∧ ((0 ≤ count)%Z →
       ∃ backs, stack_backs count = Some backs
         ∧ length backs = Z.to_nat (Z.min count 4)
         ∧ (length backs ≤ 4)%nat
         ∧ (∀ i, i ∈ backs ↔ (0 ≤ i < count ∧ i < 4)%Z)
         ∧ (backs = [] ↔ badge_shown count = false)).
Proof.
  unfold stack_backs, stackCount, badge_shown. split.
  - intros H. by rewrite (proj2 (Z.ltb_lt _ _)) by lia.
  - intros H. rewrite (proj2 (Z.ltb_ge _ _)) by lia.
    eexists. split; [done|].
    rewrite length_fmap, length_seq.
    split; [done|]. split; [lia|]. split.
    + intros i. rewrite list_elem_of_fmap. setoid_rewrite elem_of_seq.
      split.
      * intros (n & -> & Hn). lia.
      * intros Hi. exists (Z.to_nat i). lia.
    + destruct (0 <? count)%Z eqn:Hc.
      * apply Z.ltb_lt in Hc. split; [|done].
        intros Hnil. apply (f_equal length) in Hnil.
        rewrite length_fmap, length_seq in Hnil. cbn in Hnil. lia.
      * apply Z.ltb_ge in Hc. split; [done|]. intros _.
        by replace (Z.min count 4) with 0%Z by lia.
Qed.

Lemma stack_shows_at_most_four_witness :
  (-1 < 0)%Z ∧ stack_backs (-1) = None
  ∧ (0 ≤ 10)%Z
  ∧ ∃ backs, stack_backs 10 = Some backs ∧ length backs = 4%nat.
Proof.
  destruct (stack_shows_at_most_four (-1)) as [Hneg _].
  destruct (stack_shows_at_most_four 10) as [_ Hpos].
  assert (-1 < 0)%Z as H1 by lia.
  assert (0 ≤ 10)%Z as H2 by lia.
  split; [exact H1|]. split; [exact (Hneg H1)|]. split; [exact H2|].
  destruct (Hpos H2) as (backs & Hb & Hlen & _).
  exists backs. split; [exact Hb|exact Hlen].
Defined.
